(** * LinkedListPointer: a shallow embedding of juce_LinkedListPointer.h

    The C++ template manipulates intrusive singly-linked lists through
    pointers to link slots.  A link slot is a [LinkedListPointer] object: it
    is either a stand-alone list head or the [nextListItem] member embedded in
    a node.  Every method of the class reads or rewrites such slots, so the
    model keeps an explicit memory (list heads and heap objects) and threads it
    through a small state-and-error monad. *)

From Stdlib Require Import ZArith Lia.
From stdpp Require Import gmap list.

Local Open Scope Z_scope.

(** ** The C++ [int] *)

Module Int.

Definition INT_MIN : Z := - 2 ^ 31.
Definition INT_MAX : Z := 2 ^ 31 - 1.

Definition in_range (z : Z) : Prop := INT_MIN <= z <= INT_MAX.

(** Two's-complement reduction of a mathematical integer to 32 bits.  The
    language leaves signed overflow undefined; the targets of the library
    wrap, and that wrap-around is what is written out here. *)
Definition wrap (z : Z) : Z := (z + 2 ^ 31) mod 2 ^ 32 - 2 ^ 31.

(** [++total] *)
Definition inc (z : Z) : Z := wrap (z + 1).
(** [--index] *)
Definition dec (z : Z) : Z := wrap (z - 1).
(** [a + b] *)
Definition add (a b : Z) : Z := wrap (a + b).

End Int.

(** ** Memory *)

(** Address of a heap-allocated [ObjectType]. *)
Abbreviation addr := positive.

(** An [ObjectType*]: [None] is the null pointer. *)
Abbreviation ptr := (option positive).

(** A [LinkedListPointer*] that is not null: the address of a link slot. *)
Inductive slot : Type :=
| Head (k : nat)        (* a stand-alone LinkedListPointer variable *)
| NextOf (a : addr).    (* &(a->nextListItem) *)

Global Instance slot_eq_dec : EqDecision slot.
Proof. solve_decision. Defined.

(** Results of running a method. *)
Inductive outcome (A : Type) : Type :=
| Done (a : A)
| PrecondViolation   (* a jassert failed *)
| Undefined          (* a null or dangling pointer was dereferenced *)
| OutOfFuel.         (* the loop did not finish within the fuel given *)

Arguments Done {A} a.
Arguments PrecondViolation {A}.
Arguments Undefined {A}.
Arguments OutOfFuel {A}.

Section LinkedListPointer.

(** The members of [ObjectType] other than the link. *)
Context {V : Type}.

(** An [ObjectType]: it "must contain a LinkedListPointer called
    nextListItem"; the field [item] of that member is stored directly. *)
Record Object : Type := mkObject {
  payload : V;
  nextListItem : ptr
}.

Record Memory : Type := mkMemory {
  heads : gmap nat ptr;          (* field [item] of each stand-alone slot *)
  objects : gmap positive Object (* the allocated nodes *)
}.

(** [ObjectType]'s copy constructor, a parameter of the template: the
    contents of the copy as a function of the object copied. *)
Variable copy_constructor : Object -> Object.

(** ** The monad *)

Definition M (A : Type) : Type := Memory -> outcome (A * Memory).

Definition ret {A} (a : A) : M A := fun m => Done (a, m).

Definition bind {A B} (c : M A) (k : A -> M B) : M B :=
  fun m =>
    match c m with
    | Done (a, m') => k a m'
    | PrecondViolation => PrecondViolation
    | Undefined => Undefined
    | OutOfFuel => OutOfFuel
    end.

Definition undefined {A} : M A := fun _ => Undefined.
Definition out_of_fuel {A} : M A := fun _ => OutOfFuel.

Notation "'let*' x := c 'in' k" := (bind c (fun x => k))
  (at level 10, x name, c at level 100, k at level 200).
Notation "'exec' c 'in' k" := (bind c (fun _ => k))
  (at level 10, c at level 100, k at level 200).

(** Modelled from the spec: the macro [jassert] is defined outside this
    header; a failed assertion is a PrecondViolation, raised at the point
    of violation, and the method does not proceed. *)
Definition jassert (b : bool) : M unit :=
  fun m => if b then Done (tt, m) else PrecondViolation.

(** ** Link slots *)

(** The value of [l->item], when [l] points to a live slot. *)
Definition slot_val (m : Memory) (l : slot) : option ptr :=
  match l with
  | Head k => heads m !! k
  | NextOf a => nextListItem <$> objects m !! a
  end.

Definition store (m : Memory) (l : slot) (p : ptr) : Memory :=
  match l with
  | Head k => mkMemory (<[k := p]> (heads m)) (objects m)
  | NextOf a =>
      mkMemory (heads m)
               (alter (fun o => mkObject (payload o) p) a (objects m))
  end.

(** [l->item] as an rvalue. *)
Definition read (l : slot) : M ptr :=
  fun m => match slot_val m l with
           | Some p => Done (p, m)
           | None => Undefined
           end.

(** [l->item = p], also [*l = p] through [operator=]. *)
Definition write (l : slot) (p : ptr) : M unit :=
  fun m => match slot_val m l with
           | Some _ => Done (tt, store m l p)
           | None => Undefined
           end.

(** [*i] for an [ObjectType* i]. *)
Definition deref (i : ptr) : M Object :=
  fun m => match i with
           | Some a => match objects m !! a with
                       | Some o => Done (o, m)
                       | None => Undefined
                       end
           | None => Undefined
           end.

(** [i->nextListItem] as an rvalue, for an [ObjectType* i]. *)
Definition next_of (i : ptr) : M ptr :=
  match i with
  | Some a => read (NextOf a)
  | None => undefined
  end.

(** [&(i->nextListItem)]. *)
Definition next_slot (i : ptr) : M slot :=
  match i with
  | Some a => ret (NextOf a)
  | None => undefined
  end.

(** [new ObjectType (o)]. *)
Definition alloc (o : Object) : M ptr :=
  fun m =>
    let a := fresh (dom (objects m)) in
    Done (Some a, mkMemory (heads m) (<[a := o]> (objects m))).

(** ** The methods of LinkedListPointer *)

(** [get()] and [operator ObjectType*()]. *)
Definition get (this : slot) : M ptr := read this.

(** {[ LinkedListPointer* l = this;
       while (l->item != 0)
           l = &(l->item->nextListItem);
       return *l; ]} *)
Fixpoint getLast (fuel : nat) (l : slot) : M slot :=
  match fuel with
  | O => out_of_fuel
  | S fuel' =>
      let* i := read l in
      match i with
      | None => ret l
      | Some a => getLast fuel' (NextOf a)
      end
  end.

(** {[ int total = 0;
       for (ObjectType* i = item; i != 0; i = i->nextListItem)
           ++total;
       return total; ]} *)
Fixpoint size_loop (fuel : nat) (i : ptr) (total : Z) : M Z :=
  match fuel with
  | O => out_of_fuel
  | S fuel' =>
      match i with
      | None => ret total
      | Some _ =>
          let total' := Int.inc total in
          let* i' := next_of i in
          size_loop fuel' i' total'
      end
  end.

Definition size (fuel : nat) (this : slot) : M Z :=
  let* i := read this in size_loop fuel i 0.

(** [operator[] (int index)]; the const overload has the same body.
    {[ LinkedListPointer* l = this;
       while (--index >= 0 && l->item != 0)
           l = &(l->item->nextListItem);
       return *l; ]} *)
Fixpoint subscript (fuel : nat) (l : slot) (index : Z) : M slot :=
  match fuel with
  | O => out_of_fuel
  | S fuel' =>
      let index' := Int.dec index in
      if 0 <=? index' then
        let* i := read l in
        match i with
        | Some a => subscript fuel' (NextOf a) index'
        | None => ret l
        end
      else ret l
  end.

Definition subscript_const := subscript.

(** {[ for (ObjectType* i = item; i != 0; i = i->nextListItem)
           if (itemToLookFor == i)
               return true;
       return false; ]} *)
Fixpoint contains_loop (fuel : nat) (itemToLookFor i : ptr) : M bool :=
  match fuel with
  | O => out_of_fuel
  | S fuel' =>
      match i with
      | None => ret false
      | Some _ =>
          if bool_decide (itemToLookFor = i) then ret true
          else let* i' := next_of i in contains_loop fuel' itemToLookFor i'
      end
  end.

Definition contains (fuel : nat) (this : slot) (itemToLookFor : ptr) : M bool :=
  let* i := read this in contains_loop fuel itemToLookFor i.

(** {[ jassert (newItem != 0);
       jassert (newItem->nextListItem == 0);
       newItem->nextListItem = item;
       item = newItem; ]} *)
Definition insertNext (this : slot) (newItem : ptr) : M unit :=
  exec jassert (bool_decide (newItem <> None)) in
  let* n := next_of newItem in
  exec jassert (bool_decide (n = None)) in
  let* item := read this in
  let* l := next_slot newItem in
  exec write l item in
  write this newItem.

(** {[ jassert (newItem != 0);
       LinkedListPointer* l = this;
       while (index != 0 && l->item != 0)
       {
           l = &(l->item->nextListItem);
           --index;
       }
       l->insertNext (newItem); ]} *)
Fixpoint insertAtIndex_loop (fuel : nat) (l : slot) (index : Z) : M slot :=
  match fuel with
  | O => out_of_fuel
  | S fuel' =>
      if bool_decide (index <> 0) then
        let* i := read l in
        match i with
        | Some a => insertAtIndex_loop fuel' (NextOf a) (Int.dec index)
        | None => ret l
        end
      else ret l
  end.

Definition insertAtIndex (fuel : nat) (this : slot) (index : Z) (newItem : ptr)
  : M unit :=
  exec jassert (bool_decide (newItem <> None)) in
  let* l := insertAtIndex_loop fuel this index in
  insertNext l newItem.

(** {[ jassert (newItem != 0);
       jassert (newItem->nextListItem == 0);
       ObjectType* const oldItem = item;
       item = newItem;
       item->nextListItem = oldItem->nextListItem;
       oldItem->nextListItem = 0;
       return oldItem; ]}
    There is no assertion on [item]. *)
Definition replaceNext (this : slot) (newItem : ptr) : M ptr :=
  exec jassert (bool_decide (newItem <> None)) in
  let* n := next_of newItem in
  exec jassert (bool_decide (n = None)) in
  let* oldItem := read this in
  exec write this newItem in
  let* item := read this in
  let* rest := next_of oldItem in
  let* l := next_slot item in
  exec write l rest in
  let* l' := next_slot oldItem in
  exec write l' None in
  ret oldItem.

(** {[ getLast().item = newItem; ]} *)
Definition append (fuel : nat) (this : slot) (newItem : ptr) : M unit :=
  let* l := getLast fuel this in
  write l newItem.

(** {[ LinkedListPointer* insertPoint = this;
       for (ObjectType* i = other.item; i != 0; i = i->nextListItem)
       {
           insertPoint->insertNext (new ObjectType ( *i ));
           insertPoint = &(insertPoint->item->nextListItem);
       } ]} *)
Fixpoint addCopyOfList_loop (fuel : nat) (insertPoint : slot) (i : ptr)
  : M unit :=
  match fuel with
  | O => out_of_fuel
  | S fuel' =>
      match i with
      | None => ret tt
      | Some _ =>
          let* o := deref i in
          let* c := alloc (copy_constructor o) in
          exec insertNext insertPoint c in
          let* item := read insertPoint in
          let* insertPoint' := next_slot item in
          let* i' := next_of i in
          addCopyOfList_loop fuel' insertPoint' i'
      end
  end.

Definition addCopyOfList (fuel : nat) (this other : slot) : M unit :=
  let* i := read other in addCopyOfList_loop fuel this i.

(** {[ if (item == 0)
           return 0;
       ObjectType* const oldItem = item;
       oldItem->nextListItem = 0;
       item = item->nextListItem;
       return oldItem; ]}
    The second assignment reads [item] again, after the link of the node it
    points to has been cleared. *)
Definition removeNext (this : slot) : M ptr :=
  let* item := read this in
  match item with
  | None => ret None
  | Some _ =>
      let oldItem := item in
      let* l := next_slot oldItem in
      exec write l None in
      let* item' := read this in
      let* n := next_of item' in
      exec write this n in
      ret oldItem
  end.

(** Returns a [LinkedListPointer*]; [None] is the null result.
    {[ LinkedListPointer* l = this;
       while (l->item != 0)
       {
           if (l->item == itemToLookFor)
               return l;
           l = &(l->item->nextListItem);
       }
       return 0; ]} *)
Fixpoint findPointerTo (fuel : nat) (l : slot) (itemToLookFor : ptr)
  : M (option slot) :=
  match fuel with
  | O => out_of_fuel
  | S fuel' =>
      let* i := read l in
      match i with
      | None => ret None
      | Some a =>
          if bool_decide (i = itemToLookFor) then ret (Some l)
          else findPointerTo fuel' (NextOf a) itemToLookFor
      end
  end.

(** {[ LinkedListPointer* l = findPointerTo (item);
       if (l != 0)
           l->removeNext(); ]} *)
Definition remove (fuel : nat) (this : slot) (item : ptr) : M unit :=
  let* l := findPointerTo fuel this item in
  match l with
  | Some l' => exec removeNext l' in ret tt
  | None => ret tt
  end.

(** [delete oldItem]. *)
Definition free (i : ptr) : M unit :=
  fun m => match i with
           | Some a => match objects m !! a with
                       | Some _ => Done (tt, mkMemory (heads m) (delete a (objects m)))
                       | None => Undefined
                       end
           | None => Done (tt, m)
           end.

(** {[ while (item != 0)
       {
           ObjectType* const oldItem = item;
           item = oldItem->nextListItem;
           delete oldItem;
       } ]} *)
Fixpoint deleteAll (fuel : nat) (this : slot) : M unit :=
  match fuel with
  | O => out_of_fuel
  | S fuel' =>
      let* item := read this in
      match item with
      | None => ret tt
      | Some _ =>
          let* n := next_of item in
          exec write this n in
          exec free item in
          deleteAll fuel' this
      end
  end.

(** [copyToArray (ObjectType** destArray)].  The destination is a caller's
    array of [ObjectType*]: [None] is the null pointer, [Some arr] points to
    the first element of an array with the contents [arr].  The method
    returns the contents of the array afterwards.  "No checks are made" on
    its size: a store past the last element is undefined behaviour.
    {[ jassert (destArray != 0);
       for (ObjectType* i = item; i != 0; i = i->nextListItem)
           ( *destArray++ ) = i; ]} *)
Fixpoint copyToArray_loop (fuel : nat) (i : ptr) (arr : list ptr) (pos : nat)
  : M (list ptr) :=
  match fuel with
  | O => out_of_fuel
  | S fuel' =>
      match i with
      | None => ret arr
      | Some _ =>
          if decide (pos < length arr)%nat then
            let arr' := <[pos := i]> arr in
            let* i' := next_of i in
            copyToArray_loop fuel' i' arr' (S pos)
          else undefined
      end
  end.

Definition copyToArray (fuel : nat) (this : slot) (destArray : option (list ptr))
  : M (list ptr) :=
  exec jassert (bool_decide (destArray <> None)) in
  match destArray with
  | Some arr => let* i := read this in copyToArray_loop fuel i arr 0
  | None => undefined
  end.

(** ** The nested class Appender *)

Record Appender : Type := mkAppender { endOfList : slot }.

(** The constructor:
    {[ : endOfList (&endOfListPointer)
       { jassert (endOfListPointer.item == 0); } ]} *)
Definition Appender_new (endOfListPointer : slot) : M Appender :=
  let* i := read endOfListPointer in
  exec jassert (bool_decide (i = None)) in
  ret (mkAppender endOfListPointer).

(** {[ ( *endOfList ) = newItem;
       endOfList = &(newItem->nextListItem); ]} *)
Definition Appender_append (ap : Appender) (newItem : ptr) : M Appender :=
  exec write (endOfList ap) newItem in
  let* l := next_slot newItem in
  ret (mkAppender l).

(** ** Client code: a run of appends *)

(** [ap.append (n1); ap.append (n2); ...] on one Appender. *)
Fixpoint Appender_append_all (ap : Appender) (ns : list addr) : M Appender :=
  match ns with
  | [] => ret ap
  | n :: ns' =>
      let* ap' := Appender_append ap (Some n) in
      Appender_append_all ap' ns'
  end.

(** [list.append (n1); list.append (n2); ...] on one list head. *)
Fixpoint append_all (fuel : nat) (this : slot) (ns : list addr) : M unit :=
  match ns with
  | [] => ret tt
  | n :: ns' =>
      exec append fuel this (Some n) in
      append_all fuel this ns'
  end.

(** ** Chains: the list of nodes reachable from a pointer *)

(** [chain m p xs]: following [nextListItem] from [p] visits exactly the
    nodes [xs], in that order, and then reaches the null pointer. *)
Fixpoint chain (m : Memory) (p : ptr) (xs : list addr) : Prop :=
  match xs with
  | [] => p = None
  | a :: xs' =>
      p = Some a /\ exists q, slot_val m (NextOf a) = Some q /\ chain m q xs'
  end.

(** The list hanging off a link slot. *)
Definition list_at (m : Memory) (l : slot) (xs : list addr) : Prop :=
  exists p, slot_val m l = Some p /\ chain m p xs.

(** The link slot at 0-based position [i] of the list [xs] that starts at
    slot [l]: position 0 is [l] itself, position [i+1] is the link field of
    the [i]-th node; past the end it stays at the terminal slot. *)
Fixpoint slot_at (l : slot) (xs : list addr) (i : nat) : slot :=
  match i, xs with
  | S j, a :: xs' => slot_at (NextOf a) xs' j
  | _, _ => l
  end.

Definition terminal_slot (l : slot) (xs : list addr) : slot := slot_at l xs (length xs).

(** Reference identity of [itemToLookFor] with a node of the list. *)
Definition occurs (itemToLookFor : ptr) (xs : list addr) : bool :=
  match itemToLookFor with
  | Some a => bool_decide (a ∈ xs)
  | None => false
  end.

(** [updated_at l m m']: going from [m] to [m'], list heads other than
    [l] and objects whose link field is not [l] are kept as they are, and
    every object keeps its payload; new objects may have been allocated. *)
Definition updated_at (l : slot) (m m' : Memory) : Prop :=
  (forall k p, l <> Head k -> heads m !! k = Some p -> heads m' !! k = Some p) /\
  (forall a o, l <> NextOf a -> objects m !! a = Some o ->
               objects m' !! a = Some o) /\
  (forall a o, objects m !! a = Some o ->
               payload <$> objects m' !! a = Some (payload o)).

End LinkedListPointer.

Arguments Object V : clear implicits.
Arguments Memory V : clear implicits.

Notation "'let*' x := c 'in' k" := (bind c (fun x => k))
  (at level 10, x name, c at level 100, k at level 200).
Notation "'exec' c 'in' k" := (bind c (fun _ => k))
  (at level 10, c at level 100, k at level 200).

(** ** Concrete memories *)

Module Scenario.

Definition nA : addr := 1%positive.
Definition nB : addr := 2%positive.
Definition nC : addr := 3%positive.
Definition nX : addr := 4%positive.

(** The list head under test, and a second one. *)
Definition list1 : slot := Head 0.
Definition list2 : slot := Head 1.

Definition node (v : Z) (next : ptr) : Object Z := mkObject v next.

Definition memory (hs : list (nat * ptr)) (os : list (addr * Object Z))
  : Memory Z :=
  mkMemory (list_to_map hs) (list_to_map os).

(** A copy constructor that copies the payload and default-constructs the
    [nextListItem] member. *)
Definition copy_payload (o : Object Z) : Object Z :=
  mkObject (payload o) None.

(** The implicit, member-wise copy constructor: it copies the
    [nextListItem] member too. *)
Definition copy_memberwise (o : Object Z) : Object Z := o.

(** An empty list, and an unlinked node X. *)
Definition m_empty : Memory Z :=
  memory [(0%nat, None)] [(nX, node 40 None)].

(** The list [A], and an unlinked node X. *)
Definition m_A : Memory Z :=
  memory [(0%nat, Some nA)] [(nA, node 10 None); (nX, node 40 None)].

(** The list [A,B]. *)
Definition m_AB : Memory Z :=
  memory [(0%nat, Some nA)] [(nA, node 10 (Some nB)); (nB, node 20 None)].

(** The list [B], and an unlinked node A. *)
Definition m_B : Memory Z :=
  memory [(0%nat, Some nB)] [(nA, node 10 None); (nB, node 20 None)].

(** The list [A,B,C], and an unlinked node X. *)
Definition m_ABC : Memory Z :=
  memory [(0%nat, Some nA)]
         [(nA, node 10 (Some nB)); (nB, node 20 (Some nC)); (nC, node 30 None);
          (nX, node 40 None)].

(** Destination list [A]; source list [B,C]. *)
Definition m_dest_src : Memory Z :=
  memory [(0%nat, Some nA); (1%nat, Some nB)]
         [(nA, node 10 None); (nB, node 20 (Some nC)); (nC, node 30 None)].

(** The list [A]; the node B with C hanging off it; an unlinked node X. *)
Definition m_cut : Memory Z :=
  memory [(0%nat, Some nA)]
         [(nA, node 10 None); (nB, node 20 (Some nC)); (nC, node 30 None);
          (nX, node 40 None)].

End Scenario.


(** ** Arithmetic of [int] *)

Module IntFacts.
Import Int.

Lemma wrap_in_range z : in_range z -> wrap z = z.
Proof.
  unfold in_range, INT_MIN, INT_MAX, wrap. intros Hz.
  rewrite Z.mod_small; lia.
Qed.

Lemma wrap_add_l a b : wrap (wrap a + b) = wrap (a + b).
Proof.
  unfold wrap.
  replace ((a + 2 ^ 31) mod 2 ^ 32 - 2 ^ 31 + b + 2 ^ 31)
    with ((a + 2 ^ 31) mod 2 ^ 32 + b) by lia.
  rewrite Zplus_mod_idemp_l. f_equal. f_equal. lia.
Qed.

Lemma wrap_add_r a b : wrap (a + wrap b) = wrap (a + b).
Proof. rewrite (Z.add_comm a), wrap_add_l. f_equal. lia. Qed.

Lemma dec_no_overflow z : INT_MIN < z <= INT_MAX -> dec z = z - 1.
Proof.
  intros Hz. apply wrap_in_range. unfold in_range, INT_MIN, INT_MAX in *. lia.
Qed.

(** [n] increments starting from [t]. *)
Lemma iter_inc (n : nat) t : Nat.iter n inc (wrap t) = wrap (t + Z.of_nat n).
Proof.
  induction n as [|n IH]; simpl.
  - f_equal. lia.
  - rewrite IH. unfold inc. rewrite wrap_add_l. f_equal. lia.
Qed.

End IntFacts.

(** ** Facts about chains *)

Section Chains.

Context {V : Type}.
Implicit Types (m : Memory V) (l : slot) (p q : ptr) (a b : addr)
  (xs ys : list addr).

(** *** Running the primitive commands *)

Lemma bind_Done {A B} (c : M A) (k : A -> M B) m (x : A) m' :
  c m = Done (x, m') -> bind c k m = k x m'.
Proof. unfold bind. intros ->. reflexivity. Qed.

Lemma read_Done m l p : slot_val m l = Some p -> read l m = Done (p, m).
Proof. unfold read. intros ->. reflexivity. Qed.

Lemma write_Done m l p q :
  slot_val m l = Some q -> write l p m = Done (tt, store m l p).
Proof. unfold write. intros ->. reflexivity. Qed.

Lemma slot_val_store_eq m l p :
  is_Some (slot_val m l) -> slot_val (store m l p) l = Some p.
Proof.
  destruct l as [k|a]; simpl; intros [q Hq].
  - apply lookup_insert_eq.
  - rewrite lookup_alter_eq.
    destruct (objects m !! a); simpl in *; [reflexivity | discriminate].
Qed.

Lemma slot_val_store_ne m l l' p :
  l <> l' -> slot_val (store m l p) l' = slot_val m l'.
Proof.
  destruct l as [k|a], l' as [k'|a']; simpl; intros Hne; try reflexivity.
  - apply lookup_insert_ne. congruence.
  - rewrite lookup_alter_ne; [reflexivity | congruence].
Qed.

Lemma store_same m l p : slot_val m l = Some p -> store m l p = m.
Proof.
  destruct m as [hs os], l as [k|a]; simpl; intros H; f_equal.
  - by apply insert_id.
  - apply map_eq. intros i. destruct (decide (a = i)) as [<-|Hne].
    + rewrite lookup_alter_eq. destruct (os !! a) as [[v n]|]; simpl in *; congruence.
    + by rewrite lookup_alter_ne.
Qed.

#[local] Arguments slot_val : simpl never.
#[local] Arguments store : simpl never.

(** *** Shape lemmas *)

Lemma chain_functional m p xs ys : chain m p xs -> chain m p ys -> xs = ys.
Proof.
  revert p ys. induction xs as [|a xs IH]; intros p [|b ys]; simpl.
  - reflexivity.
  - intros -> [? _]. discriminate.
  - intros [-> _] ?. discriminate.
  - intros [-> (q & Hq & Hc)] [[= <-] (q' & Hq' & Hc')].
    f_equal. rewrite Hq in Hq'. injection Hq' as <-. eauto.
Qed.

Lemma chain_suffix m p xs a ys :
  chain m p (xs ++ a :: ys) -> chain m (Some a) (a :: ys).
Proof.
  revert p. induction xs as [|b xs IH]; intros p; simpl.
  - intros [-> H]. split; [reflexivity | exact H].
  - intros [-> (q & _ & Hc)]. exact (IH _ Hc).
Qed.

(** A node is never part of the list hanging off its own link field: the
    chain would be cyclic. *)
Lemma list_at_next_notin m a xs : list_at m (NextOf a) xs -> a ∉ xs.
Proof.
  intros (p & Hp & Hc) Hin.
  destruct (list_elem_of_split _ _ Hin) as (us & vs & ->).
  destruct (chain_suffix _ _ _ _ _ Hc) as [_ (q & Hq & Hc')].
  rewrite Hp in Hq. injection Hq as <-.
  pose proof (chain_functional _ _ _ _ Hc Hc') as Heq.
  apply (f_equal length) in Heq. rewrite length_app in Heq. simpl in Heq. lia.
Qed.

Lemma chain_NoDup m p xs : chain m p xs -> NoDup xs.
Proof.
  revert p. induction xs as [|a xs IH]; intros p; simpl.
  - intros _. constructor.
  - intros [-> (q & Hq & Hc)]. constructor; [|eauto].
    apply (list_at_next_notin m). exists q. auto.
Qed.

(** Writing a slot that is not the link field of a node of the chain
    leaves the chain as it is. *)
Lemma chain_store_frame m p xs l q :
  (forall a, a ∈ xs -> l <> NextOf a) ->
  chain m p xs -> chain (store m l q) p xs.
Proof.
  revert p. induction xs as [|a xs IH]; intros p Hfr; simpl; [auto|].
  intros [-> (q' & Hq' & Hc)]. split; [reflexivity|].
  exists q'. split.
  - rewrite slot_val_store_ne; [exact Hq' | apply Hfr; left].
  - apply IH; [|exact Hc]. intros b Hb. apply Hfr. by right.
Qed.

Lemma chain_app m p xs ys :
  chain m p (xs ++ ys) ->
  exists q, chain m q ys /\ (xs = [] -> q = p) /\
            (forall a, last xs = Some a -> slot_val m (NextOf a) = Some q).
Proof.
  revert p. induction xs as [|a xs IH]; intros p; simpl.
  - intros H. exists p. repeat split; [exact H | discriminate].
  - intros [-> (q & Hq & Hc)]. destruct (IH _ Hc) as (q' & Hq' & Hnil & Hlast).
    exists q'. split; [exact Hq'|]. split; [discriminate|].
    intros b Hb. destruct xs as [|c xs].
    + simpl in Hb. injection Hb as <-. rewrite Hq. f_equal. symmetry. by apply Hnil.
    + apply Hlast. exact Hb.
Qed.

(** The terminal slot of a list holds the null pointer. *)
Lemma terminal_slot_val m l xs :
  list_at m l xs -> slot_val m (terminal_slot l xs) = Some None.
Proof.
  unfold terminal_slot. revert l. induction xs as [|a xs IH]; intros l (p & Hp & Hc).
  - simpl in *. by subst.
  - simpl in *. destruct Hc as [-> (q & Hq & Hc)]. apply IH. exists q. auto.
Qed.

Lemma terminal_slot_snoc l xs a : terminal_slot l (xs ++ [a]) = NextOf a.
Proof.
  unfold terminal_slot. revert l. induction xs as [|b xs IH]; intros l; simpl.
  - reflexivity.
  - apply IH.
Qed.

Lemma terminal_slot_cases l xs :
  (xs = [] /\ terminal_slot l xs = l) \/
  (exists a, last xs = Some a /\ terminal_slot l xs = NextOf a).
Proof.
  destruct xs as [|b xs] using rev_ind.
  - left. auto.
  - right. exists b. split; [apply last_snoc | apply terminal_slot_snoc].
Qed.

Lemma terminal_slot_app l xs ys :
  ys <> [] -> terminal_slot l (xs ++ ys) = terminal_slot (terminal_slot l xs) ys.
Proof.
  intros Hys. destruct ys as [|b ys] using rev_ind; [done|].
  rewrite app_assoc, !terminal_slot_snoc. reflexivity.
Qed.

Lemma slot_at_0 l xs : slot_at l xs 0 = l.
Proof. destruct xs; reflexivity. Qed.

Lemma slot_at_nil l i : slot_at l [] i = l.
Proof. destruct i; reflexivity. Qed.

Lemma slot_at_cases l xs i :
  slot_at l xs i = l \/ exists a, a ∈ xs /\ slot_at l xs i = NextOf a.
Proof.
  revert l i. induction xs as [|b xs IH]; intros l i.
  - left. apply slot_at_nil.
  - destruct i as [|i]; [by left|]. right. simpl.
    destruct (IH (NextOf b) i) as [->|(a & Ha & ->)].
    + exists b. split; [left | reflexivity].
    + exists a. split; [by right | reflexivity].
Qed.

(** Storing a pointer to a second chain into the slot at position [i] of a
    list replaces the remainder of the list from that position by the
    second chain, provided the slot written is not a link field inside the
    second chain. *)
Lemma list_at_store_slot_at m l xs i q ys :
  list_at m l xs ->
  chain m q ys ->
  (forall a, a ∈ ys -> slot_at l xs i <> NextOf a) ->
  list_at (store m (slot_at l xs i) q) l (take i xs ++ ys).
Proof.
  revert l i.
  induction xs as [|a xs IH]; intros l i Hl Hq Hfr.
  - rewrite slot_at_nil in *. rewrite take_nil. simpl.
    destruct Hl as (p & Hp & _). exists q. split.
    + apply slot_val_store_eq. eauto.
    + by apply chain_store_frame.
  - destruct i as [|i].
    + rewrite slot_at_0 in *. simpl.
      destruct Hl as (p & Hp & _). exists q. split.
      * apply slot_val_store_eq. eauto.
      * by apply chain_store_frame.
    + pose proof Hl as (p & Hp & Hc). simpl in Hc.
      destruct Hc as [-> (p' & Hp' & Hc)]. simpl in *.
      assert (Hl' : list_at m (NextOf a) xs) by (exists p'; auto).
      destruct (IH (NextOf a) i Hl' Hq Hfr) as (p'' & Hp'' & Hc'').
      exists (Some a). split.
      * rewrite slot_val_store_ne; [exact Hp|]. intros Heq.
        assert (Hin : exists b, b ∈ a :: xs /\ l = NextOf b).
        { destruct (slot_at_cases (NextOf a) xs i) as [Ht|(b & Hb & Ht)];
            rewrite Ht in Heq; subst l.
          - exists a. split; [left | reflexivity].
          - exists b. split; [by right | reflexivity]. }
        destruct Hin as (b & Hb & ->). revert Hb.
        apply (list_at_next_notin m). exact Hl.
      * split; [reflexivity|]. exists p''. auto.
Qed.

Lemma list_at_store_terminal m l xs q ys :
  list_at m l xs ->
  chain m q ys ->
  (forall a, a ∈ ys -> terminal_slot l xs <> NextOf a) ->
  list_at (store m (terminal_slot l xs) q) l (xs ++ ys).
Proof.
  intros Hl Hq Hfr.
  pose proof (list_at_store_slot_at m l xs (length xs) q ys Hl Hq Hfr) as H.
  by rewrite firstn_all in H.
Qed.

End Chains.

(** ** The traversals *)

Section Traversals.

Context {V : Type}.
Implicit Types (m : Memory V) (l : slot) (p q : ptr) (a b : addr)
  (xs ys : list addr) (fuel : nat).

#[local] Arguments slot_val : simpl never.
#[local] Arguments store : simpl never.

Lemma slot_at_succ l xs i a : xs !! i = Some a -> slot_at l xs (S i) = NextOf a.
Proof.
  revert l i. induction xs as [|b xs IH]; intros l i; [done|].
  destruct i as [|i]; simpl.
  - intros [= ->]. apply slot_at_0.
  - intros H. destruct xs as [|c xs]; [done|]. exact (IH _ _ H).
Qed.

Lemma slot_at_ge l xs i : (length xs <= i)%nat -> slot_at l xs i = terminal_slot l xs.
Proof.
  unfold terminal_slot. revert l i. induction xs as [|b xs IH]; intros l i Hi.
  - by rewrite !slot_at_nil.
  - simpl in Hi. destruct i as [|i]; [lia|]. simpl. apply IH. lia.
Qed.

(** The slot at position [i] holds the [i]-th node of the list, and the
    null pointer at the position one past the last node. *)
Lemma slot_at_val m l xs i :
  list_at m l xs -> (i <= length xs)%nat -> slot_val m (slot_at l xs i) = Some (xs !! i).
Proof.
  revert l i. induction xs as [|b xs IH]; intros l i (p & Hp & Hc) Hi.
  - rewrite slot_at_nil. simpl in *. subst p. by destruct i.
  - simpl in Hc. destruct Hc as [-> (q & Hq & Hc)].
    destruct i as [|i]; [exact Hp|]. simpl in *. apply IH; [|lia].
    exists q. auto.
Qed.

Lemma getLast_spec m l xs fuel :
  list_at m l xs -> (length xs < fuel)%nat ->
  getLast fuel l m = Done (terminal_slot l xs, m).
Proof.
  unfold terminal_slot. revert l fuel.
  induction xs as [|a xs IH]; intros l fuel (p & Hp & Hc) Hf;
    (destruct fuel as [|fuel]; [simpl in Hf; lia|]); simpl in *.
  - subst p. by rewrite (bind_Done _ _ _ _ _ (read_Done _ _ _ Hp)).
  - destruct Hc as [-> (q & Hq & Hc)].
    rewrite (bind_Done _ _ _ _ _ (read_Done _ _ _ Hp)).
    apply IH; [exists q; auto | lia].
Qed.

Lemma size_loop_spec m p xs fuel t :
  chain m p xs -> (length xs < fuel)%nat ->
  size_loop fuel p t m = Done (Nat.iter (length xs) Int.inc t, m).
Proof.
  revert p fuel t.
  induction xs as [|a xs IH]; intros p fuel t Hc Hf;
    (destruct fuel as [|fuel]; [simpl in Hf; lia|]); simpl in Hc.
  - subst p. reflexivity.
  - destruct Hc as [-> (q & Hq & Hc)]. cbn [size_loop next_of].
    rewrite (bind_Done _ _ _ _ _ (read_Done _ _ _ Hq)).
    rewrite (IH q fuel (Int.inc t) Hc); [|simpl in Hf; lia].
    cbn [length]. by rewrite Nat.iter_succ_r.
Qed.

Lemma size_spec m l xs fuel :
  list_at m l xs -> (length xs < fuel)%nat ->
  size fuel l m = Done (Int.wrap (Z.of_nat (length xs)), m).
Proof.
  intros (p & Hp & Hc) Hf. unfold size.
  rewrite (bind_Done _ _ _ _ _ (read_Done _ _ _ Hp)).
  rewrite (size_loop_spec _ _ _ _ _ Hc Hf).
  change 0 with (Int.wrap 0) at 1. by rewrite IntFacts.iter_inc.
Qed.

Lemma subscript_spec m l xs fuel index :
  list_at m l xs -> 0 <= index <= Int.INT_MAX -> (length xs < fuel)%nat ->
  subscript fuel l index m = Done (slot_at l xs (Z.to_nat index), m).
Proof.
  revert l fuel index.
  induction xs as [|a xs IH]; intros l fuel index (p & Hp & Hc) Hi Hf;
    (destruct fuel as [|fuel]; [simpl in Hf; lia|]); cbn [subscript];
    (rewrite IntFacts.dec_no_overflow; [|unfold Int.INT_MIN; lia]);
    destruct (Z.leb_spec 0 (index - 1)) as [Hpos|Hneg].
  - simpl in Hc. subst p.
    rewrite (bind_Done _ _ _ _ _ (read_Done _ _ _ Hp)). by rewrite slot_at_nil.
  - by rewrite slot_at_nil.
  - simpl in Hc. destruct Hc as [-> (q & Hq & Hc)].
    rewrite (bind_Done _ _ _ _ _ (read_Done _ _ _ Hp)).
    rewrite (IH (NextOf a) fuel (index - 1)); [|exists q; auto|lia|simpl in Hf; lia].
    replace (Z.to_nat index) with (S (Z.to_nat (index - 1))) by lia. reflexivity.
  - replace index with 0 by lia. reflexivity.
Qed.

Lemma contains_loop_spec m p xs fuel t :
  chain m p xs -> (length xs < fuel)%nat ->
  contains_loop fuel t p m = Done (occurs t xs, m).
Proof.
  revert p fuel.
  induction xs as [|a xs IH]; intros p fuel Hc Hf;
    (destruct fuel as [|fuel]; [simpl in Hf; lia|]); simpl in Hc.
  - subst p. by destruct t.
  - destruct Hc as [-> (q & Hq & Hc)]. cbn [contains_loop next_of].
    case_bool_decide as Heq.
    + subst t. simpl. rewrite bool_decide_eq_true_2; [reflexivity | left].
    + rewrite (bind_Done _ _ _ _ _ (read_Done _ _ _ Hq)).
      rewrite (IH q fuel Hc); [|simpl in Hf; lia].
      destruct t as [b|]; simpl; [|reflexivity].
      do 2 f_equal. apply bool_decide_ext. rewrite elem_of_cons.
      split; [auto|]. intros [->|?]; [congruence | done].
Qed.

Lemma contains_spec m l xs fuel t :
  list_at m l xs -> (length xs < fuel)%nat ->
  contains fuel l t m = Done (occurs t xs, m).
Proof.
  intros (p & Hp & Hc) Hf. unfold contains.
  rewrite (bind_Done _ _ _ _ _ (read_Done _ _ _ Hp)).
  by apply contains_loop_spec.
Qed.

Lemma findPointerTo_absent m l xs fuel t :
  list_at m l xs -> (length xs < fuel)%nat -> occurs t xs = false ->
  findPointerTo fuel l t m = Done (None, m).
Proof.
  revert l fuel.
  induction xs as [|a xs IH]; intros l fuel (p & Hp & Hc) Hf Ht;
    (destruct fuel as [|fuel]; [simpl in Hf; lia|]); cbn [findPointerTo];
    rewrite (bind_Done _ _ _ _ _ (read_Done _ _ _ Hp)); simpl in Hc.
  - by subst p.
  - destruct Hc as [-> (q & Hq & Hc)].
    case_bool_decide as Heq.
    + subst t. simpl in Ht. apply bool_decide_eq_false in Ht.
      exfalso. apply Ht. left.
    + apply IH; [exists q; auto | simpl in Hf; lia |].
      destruct t as [b|]; [|reflexivity]. simpl in *.
      apply bool_decide_eq_false in Ht. apply bool_decide_eq_false.
      intros Hb. apply Ht. by right.
Qed.

(** [findPointerTo] returns the slot that holds the node looked for. *)
Lemma findPointerTo_present m l xs fuel i a :
  list_at m l xs -> (length xs < fuel)%nat -> xs !! i = Some a ->
  findPointerTo fuel l (Some a) m = Done (Some (slot_at l xs i), m).
Proof.
  revert l fuel i.
  induction xs as [|b xs IH]; intros l fuel i Hl Hf Hi; [done|].
  pose proof Hl as (p & Hp & Hc).
  destruct fuel as [|fuel]; [simpl in Hf; lia|]. cbn [findPointerTo].
  rewrite (bind_Done _ _ _ _ _ (read_Done _ _ _ Hp)).
  pose proof (chain_NoDup _ _ _ Hc) as Hnd.
  simpl in Hc. destruct Hc as [-> (q & Hq & Hc)].
  destruct i as [|i]; simpl in Hi.
  - injection Hi as ->. rewrite bool_decide_eq_true_2; [|reflexivity].
    by rewrite slot_at_0.
  - rewrite bool_decide_eq_false_2.
    + simpl. apply IH; [exists q; auto | simpl in Hf; lia | exact Hi].
    + intros [= ->]. apply NoDup_cons in Hnd as [Hnotin _].
      apply Hnotin. eapply list_elem_of_lookup_2. exact Hi.
Qed.

End Traversals.

(** ** The mutators *)

Section Mutators.

Context {V : Type}.
Implicit Types (m : Memory V) (l this : slot) (p q : ptr) (a b n : addr)
  (xs ys ns : list addr) (fuel : nat).

#[local] Arguments slot_val : simpl never.
#[local] Arguments store : simpl never.

Tactic Notation "step" uconstr(H) := erewrite (bind_Done _ _ _ _ _ H).
Tactic Notation "step_read" uconstr(H) :=
  erewrite (bind_Done _ _ _ _ _ (read_Done _ _ _ H)).
Tactic Notation "step_write" uconstr(H) :=
  erewrite (bind_Done _ _ _ _ _ (write_Done _ _ _ _ H)).

Lemma slot_at_take l xs i j : (i <= j)%nat -> slot_at l (take j xs) i = slot_at l xs i.
Proof.
  revert l i j. induction xs as [|a xs IH]; intros l i j Hij.
  - by rewrite take_nil.
  - destruct i as [|i]; [by rewrite !slot_at_0|].
    destruct j as [|j]; [lia|]. simpl. apply IH. lia.
Qed.

Lemma chain_singleton m n : slot_val m (NextOf n) = Some None -> chain m (Some n) [n].
Proof. intros H. simpl. eauto. Qed.

(** *** insertNext *)

Lemma insertNext_Done m this p n :
  slot_val m this = Some p -> slot_val m (NextOf n) = Some None ->
  insertNext this (Some n) m
  = Done (tt, store (store m (NextOf n) p) this (Some n)).
Proof.
  intros Hthis Hn. unfold insertNext.
  rewrite bool_decide_eq_true_2 by done.
  unfold jassert at 1. cbn [bind next_of].
  step_read Hn. cbn [bind jassert bool_decide decide_rel]. simpl bool_decide.
  assert (Hj : jassert true m = Done (tt, m)) by reflexivity.
  step Hj. step_read Hthis. cbn [next_slot]. unfold ret at 1. cbn [bind].
  step_write Hn.
  apply (write_Done _ _ _ (if decide (NextOf n = this) then p else p)).
  destruct (decide (NextOf n = this)) as [<-|Hne].
  - apply slot_val_store_eq. eauto.
  - rewrite slot_val_store_ne by done. exact Hthis.
Qed.

Lemma insertNext_linked m this n b :
  slot_val m (NextOf n) = Some (Some b) ->
  insertNext this (Some n) m = PrecondViolation.
Proof.
  intros Hn. unfold insertNext.
  rewrite bool_decide_eq_true_2 by done.
  unfold jassert at 1. cbn [bind next_of]. step_read Hn. reflexivity.
Qed.

(** *** removeNext *)

Lemma removeNext_empty m this :
  slot_val m this = Some None -> removeNext this m = Done (None, m).
Proof. intros H. unfold removeNext. by step_read H. Qed.

Lemma removeNext_nonempty m this a q :
  slot_val m this = Some (Some a) -> slot_val m (NextOf a) = Some q ->
  this <> NextOf a ->
  removeNext this m
  = Done (Some a, store (store m (NextOf a) None) this None).
Proof.
  intros Hthis Ha Hne. unfold removeNext.
  step_read Hthis. cbn [next_slot]. unfold ret at 1. cbn [bind].
  step_write Ha.
  assert (Hthis' : slot_val (store m (NextOf a) None) this = Some (Some a))
    by (rewrite slot_val_store_ne by done; exact Hthis).
  step_read Hthis'. cbn [next_of].
  assert (Ha' : slot_val (store m (NextOf a) None) (NextOf a) = Some None)
    by (apply slot_val_store_eq; eauto).
  step_read Ha'. step_write Hthis'. reflexivity.
Qed.

(** What [removeNext] does to a list: the head node is returned with its
    link cleared, and the slot is left holding the null pointer, whatever
    followed the head node. *)
Lemma removeNext_list m this a xs :
  list_at m this (a :: xs) ->
  exists m', removeNext this m = Done (Some a, m') /\
             list_at m' this [] /\ slot_val m' (NextOf a) = Some None.
Proof.
  intros Hl. pose proof Hl as (p & Hp & Hc). simpl in Hc.
  destruct Hc as [-> (q & Hq & Hc)].
  assert (Hne : this <> NextOf a).
  { intros ->. apply (list_at_next_notin _ _ _ Hl). left. }
  eexists. split; [by eapply removeNext_nonempty|]. split.
  - exists None. split; [|reflexivity]. apply slot_val_store_eq.
    rewrite slot_val_store_ne by done. eauto.
  - rewrite slot_val_store_ne by done. apply slot_val_store_eq. eauto.
Qed.

(** [insertNext] followed by [removeNext] on the same handle gives back
    the node inserted and leaves the handle empty, whatever it held
    before. *)
Lemma insertNext_removeNext m this p n :
  slot_val m this = Some p -> slot_val m (NextOf n) = Some None ->
  this <> NextOf n ->
  exists m', (exec insertNext this (Some n) in removeNext this) m
             = Done (Some n, m') /\
             slot_val m' this = Some None /\
             slot_val m' (NextOf n) = Some None.
Proof.
  intros Hthis Hn Hne. step (insertNext_Done _ _ _ _ Hthis Hn).
  set (m1 := store (store m (NextOf n) p) this (Some n)).
  assert (Hthis1 : slot_val m1 this = Some (Some n)).
  { apply slot_val_store_eq. rewrite slot_val_store_ne by done. eauto. }
  assert (Hn1 : slot_val m1 (NextOf n) = Some p).
  { unfold m1. rewrite slot_val_store_ne by done.
    apply slot_val_store_eq. eauto. }
  eexists. split; [by eapply removeNext_nonempty|]. split.
  - apply slot_val_store_eq. rewrite slot_val_store_ne by done. eauto.
  - rewrite slot_val_store_ne by done. apply slot_val_store_eq. eauto.
Qed.

(** *** remove *)

Lemma remove_absent m this xs fuel t :
  list_at m this xs -> (length xs < fuel)%nat -> occurs t xs = false ->
  remove fuel this t m = Done (tt, m).
Proof.
  intros Hl Hf Ht. unfold remove.
  by step (findPointerTo_absent _ _ _ _ _ Hl Hf Ht).
Qed.

(** Removing the node at position [i] cuts the list down to its first [i]
    nodes: everything after the removed node is dropped with it. *)
Lemma remove_present m this xs fuel i a :
  list_at m this xs -> (length xs < fuel)%nat -> xs !! i = Some a ->
  exists m', remove fuel this (Some a) m = Done (tt, m') /\
             list_at m' this (take i xs) /\ slot_val m' (NextOf a) = Some None.
Proof.
  intros Hl Hf Hi. unfold remove.
  step (findPointerTo_present _ _ _ _ _ _ Hl Hf Hi).
  assert (Hlen : (i < length xs)%nat) by (by eapply lookup_lt_Some).
  pose proof (slot_at_val m this xs i Hl ltac:(lia)) as Hs. rewrite Hi in Hs.
  pose proof (slot_at_val m this xs (S i) Hl ltac:(lia)) as Ha.
  rewrite (slot_at_succ _ _ _ _ Hi) in Ha.
  assert (Hne : slot_at this xs i <> NextOf a).
  { intros Heq. rewrite Heq, Ha in Hs. injection Hs as Hs.
    apply (list_at_next_notin m a (drop (S i) xs)).
    - destruct Hl as (p & _ & Hc).
      rewrite <- (take_drop_middle _ _ _ Hi) in Hc.
      apply chain_suffix in Hc. simpl in Hc.
      destruct Hc as [_ (q & Hq & Hc)]. exists q. auto.
    - apply (list_elem_of_lookup_2 _ 0%nat).
      rewrite lookup_drop, Nat.add_0_r. exact Hs. }
  step (removeNext_nonempty _ _ _ _ Hs Ha Hne).
  eexists. split; [reflexivity|].
  pose proof (list_at_store_slot_at m this xs (S i) None [] Hl eq_refl) as H1.
  rewrite (slot_at_succ _ _ _ _ Hi), app_nil_r in H1.
  specialize (H1 ltac:(intros ? []%elem_of_nil)).
  pose proof (list_at_store_slot_at _ this _ i None [] H1 eq_refl) as H2.
  rewrite slot_at_take, app_nil_r, take_take in H2 by lia.
  replace (i `min` S i)%nat with i in H2 by lia.
  split.
  - apply H2. intros ? []%elem_of_nil.
  - rewrite slot_val_store_ne by done. apply slot_val_store_eq. eauto.
Qed.

(** *** replaceNext *)

Lemma replaceNext_null m this : replaceNext this None m = PrecondViolation.
Proof. reflexivity. Qed.

Lemma replaceNext_linked m this n b :
  slot_val m (NextOf n) = Some (Some b) ->
  replaceNext this (Some n) m = PrecondViolation.
Proof.
  intros Hn. unfold replaceNext.
  rewrite bool_decide_eq_true_2 by done.
  unfold jassert at 1. cbn [bind next_of]. step_read Hn. reflexivity.
Qed.

Lemma replaceNext_empty m this n :
  slot_val m (NextOf n) = Some None -> slot_val m this = Some None ->
  replaceNext this (Some n) m = Undefined.
Proof.
  intros Hn Hthis. unfold replaceNext.
  rewrite bool_decide_eq_true_2 by done.
  unfold jassert at 1. cbn [bind next_of]. step_read Hn.
  assert (Hj : jassert (bool_decide (@None addr = None)) m = Done (tt, m))
    by reflexivity.
  step Hj. step_read Hthis. step_write Hthis.
  assert (Hthis' : slot_val (store m this (Some n)) this = Some (Some n))
    by (apply slot_val_store_eq; eauto).
  step_read Hthis'. reflexivity.
Qed.

Lemma replaceNext_nonempty m this n a q :
  slot_val m (NextOf n) = Some None ->
  slot_val m this = Some (Some a) -> slot_val m (NextOf a) = Some q ->
  this <> NextOf a ->
  replaceNext this (Some n) m
  = Done (Some a,
          store (store (store m this (Some n)) (NextOf n) q) (NextOf a) None).
Proof.
  intros Hn Hthis Ha Hne. unfold replaceNext.
  assert (Hne' : this <> NextOf n) by (intros ->; congruence).
  rewrite bool_decide_eq_true_2 by done.
  unfold jassert at 1. cbn [bind next_of]. step_read Hn.
  assert (Hj : jassert (bool_decide (@None addr = None)) m = Done (tt, m))
    by reflexivity.
  step Hj. step_read Hthis. step_write Hthis.
  set (m1 := store m this (Some n)).
  assert (Hthis1 : slot_val m1 this = Some (Some n))
    by (apply slot_val_store_eq; eauto).
  assert (Ha1 : slot_val m1 (NextOf a) = Some q)
    by (unfold m1; rewrite slot_val_store_ne by done; exact Ha).
  assert (Hn1 : slot_val m1 (NextOf n) = Some None)
    by (unfold m1; rewrite slot_val_store_ne by done; exact Hn).
  step_read Hthis1. step_read Ha1.
  cbn [next_slot]. unfold ret at 1. cbn [bind].
  step_write Hn1. unfold ret at 1. cbn [bind].
  assert (Ha2 : is_Some (slot_val (store m1 (NextOf n) q) (NextOf a))).
  { destruct (decide (n = a)) as [->|Hna].
    - rewrite slot_val_store_eq; eauto.
    - rewrite slot_val_store_ne by congruence. eauto. }
  destruct Ha2 as [q' Ha2]. step_write Ha2. reflexivity.
Qed.

(** *** append and Appender *)

Lemma append_Done m this xs fuel q :
  list_at m this xs -> (length xs < fuel)%nat ->
  append fuel this q m = Done (tt, store m (terminal_slot this xs) q).
Proof.
  intros Hl Hf. unfold append. step (getLast_spec _ _ _ _ Hl Hf).
  eapply write_Done. by apply terminal_slot_val.
Qed.

Lemma Appender_new_Done m l :
  slot_val m l = Some None -> Appender_new l m = Done (mkAppender l, m).
Proof. intros H. unfold Appender_new. by step_read H. Qed.

Lemma Appender_new_nonempty m l a :
  slot_val m l = Some (Some a) -> Appender_new l m = PrecondViolation.
Proof. intros H. unfold Appender_new. by step_read H. Qed.

Lemma Appender_append_Done m l q n :
  slot_val m l = Some q ->
  Appender_append (mkAppender l) (Some n) m
  = Done (mkAppender (NextOf n), store m l (Some n)).
Proof. intros H. unfold Appender_append. cbn [endOfList]. by step_write H. Qed.

(** The terminal slot of a list is not the link field of a node that is
    neither in the list nor the owner of the slot the list starts at. *)
Lemma terminal_slot_ne this xs n :
  n ∉ xs -> this <> NextOf n -> terminal_slot this xs <> NextOf n.
Proof.
  intros Hn Hthis.
  destruct (terminal_slot_cases this xs) as [[_ ->]|(b & Hb & ->)]; [done|].
  intros [= ->]. apply Hn. by apply last_Some_elem_of.
Qed.

(** Appending a run of unlinked nodes through an Appender positioned at the
    terminal slot, and appending them one by one with [append], build the
    same memory. *)
Lemma appends_agree this fuel ns : forall m xs,
  list_at m this xs ->
  Forall (fun n => slot_val m (NextOf n) = Some None) ns ->
  NoDup ns ->
  (forall n, n ∈ ns -> n ∉ xs) ->
  (forall n, n ∈ ns -> this <> NextOf n) ->
  (length xs + length ns < fuel)%nat ->
  exists m',
    Appender_append_all (mkAppender (terminal_slot this xs)) ns m
    = Done (mkAppender (terminal_slot this (xs ++ ns)), m') /\
    append_all fuel this ns m = Done (tt, m') /\
    list_at m' this (xs ++ ns).
Proof.
  induction ns as [|n ns IH]; intros m xs Hl Hns Hnd Hfresh Hthis Hf.
  - exists m. rewrite app_nil_r. auto.
  - apply Forall_cons in Hns as [Hn Hns]. apply NoDup_cons in Hnd as [Hn' Hnd].
    simpl in Hf.
    assert (Hne : forall b, b ∈ n :: ns -> terminal_slot this xs <> NextOf b).
    { intros b Hb. apply terminal_slot_ne; auto. }
    set (m1 := store m (terminal_slot this xs) (Some n)).
    assert (Hl1 : list_at m1 this (xs ++ [n])).
    { apply list_at_store_terminal; [exact Hl | by apply chain_singleton |].
      intros b Hb%list_elem_of_singleton. subst b. apply Hne. left. }
    destruct (IH m1 (xs ++ [n])) as (m' & Hap & Hseq & Hl'); auto.
    + rewrite Forall_forall in Hns. apply Forall_forall. intros b Hb.
      unfold m1. rewrite slot_val_store_ne; [by apply Hns|].
      apply Hne. by right.
    + intros b Hb [Hin|Heq]%elem_of_app.
      * revert Hin. apply Hfresh. by right.
      * apply list_elem_of_singleton in Heq. by subst b.
    + intros b Hb. apply Hthis. by right.
    + rewrite length_app. simpl. lia.
    + exists m'. rewrite <- app_assoc in Hap, Hl'. simpl in Hap, Hl'.
      cbn [Appender_append_all append_all].
      step (Appender_append_Done _ _ _ _ (terminal_slot_val _ _ _ Hl)).
      rewrite terminal_slot_snoc in Hap.
      step (append_Done m this xs fuel (Some n) Hl ltac:(lia)).
      auto.
Qed.

End Mutators.

(** ** Copying a list *)

Section Copying.

Context {V : Type}.
Variable copy_constructor : Object V -> Object V.

(** The copy constructor default-constructs the link member of the copy. *)
Hypothesis copy_unlinked : forall o, nextListItem (copy_constructor o) = None.

Implicit Types (m : Memory V) (l this : slot) (p q : ptr) (a b c : addr)
  (xs ys ss ds cs : list addr) (fuel : nat).

Lemma slot_val_NextOf m a :
  slot_val m (NextOf a) = nextListItem <$> objects m !! a.
Proof. reflexivity. Qed.

#[local] Arguments slot_val : simpl never.
#[local] Arguments store : simpl never.

Lemma updated_at_slot_val l m m' l' p :
  updated_at l m m' -> l' <> l -> slot_val m l' = Some p -> slot_val m' l' = Some p.
Proof.
  intros (Hh & Ho & _) Hne. destruct l' as [k|a].
  - apply Hh. congruence.
  - rewrite !slot_val_NextOf. destruct (objects m !! a) as [o|] eqn:Ha; [|done].
    intros H. rewrite (Ho a o); [exact H | congruence | exact Ha].
Qed.

Lemma updated_at_chain l m m' p xs :
  updated_at l m m' -> (forall a, a ∈ xs -> l <> NextOf a) ->
  chain m p xs -> chain m' p xs.
Proof.
  intros Hup. revert p. induction xs as [|a xs IH]; intros p Hfr; simpl; [done|].
  intros [-> (q & Hq & Hc)]. split; [reflexivity|]. exists q. split.
  - eapply updated_at_slot_val; eauto. intros <-. by apply (Hfr a); [left|].
  - apply IH; [|exact Hc]. intros b Hb. apply Hfr. by right.
Qed.

Lemma updated_at_store m l q : updated_at l m (store m l q).
Proof.
  destruct l as [k|a]; unfold store; repeat split; cbn [heads objects].
  - intros k' p Hne. rewrite lookup_insert_ne by congruence. done.
  - done.
  - intros b o Hb. by rewrite Hb.
  - done.
  - intros b o Hne Hb. rewrite lookup_alter_ne by congruence. exact Hb.
  - intros b o Hb. destruct (decide (a = b)) as [->|Hne].
    + rewrite lookup_alter_eq, Hb. reflexivity.
    + rewrite lookup_alter_ne by done. by rewrite Hb.
Qed.

Lemma updated_at_alloc m l o c :
  objects m !! c = None ->
  updated_at l m (mkMemory (heads m) (<[c := o]> (objects m))).
Proof.
  intros Hc. repeat split; cbn [heads objects]; [done| |].
  - intros a o' _ Ha. rewrite lookup_insert_ne by congruence. exact Ha.
  - intros a o' Ha. rewrite lookup_insert_ne by congruence. by rewrite Ha.
Qed.

(** Updates at [l], followed by updates at [l] again or at a slot that did
    not exist at the start, are updates at [l]. *)
Lemma updated_at_trans l l' m m1 m2 :
  updated_at l m m1 -> updated_at l' m1 m2 ->
  l' = l \/ slot_val m l' = None ->
  updated_at l m m2.
Proof.
  intros (Hh & Ho & Hp) (Hh' & Ho' & Hp') Hl'. repeat split.
  - intros k p Hne Hk. apply Hh'; [|by apply Hh].
    intros ->. destruct Hl' as [<-|Hl']; [done|].
    unfold slot_val in Hl'. congruence.
  - intros a o Hne Ha. apply Ho'; [|by apply Ho].
    intros ->. destruct Hl' as [<-|Hl']; [done|].
    rewrite slot_val_NextOf, Ha in Hl'. discriminate.
  - intros a o Ha. specialize (Hp a o Ha).
    destruct (objects m1 !! a) as [o1|] eqn:Ha1; [|discriminate].
    rewrite (Hp' a o1 Ha1). simpl in Hp. congruence.
Qed.

Lemma chain_allocated m p xs a :
  chain m p xs -> a ∈ xs -> is_Some (objects m !! a).
Proof.
  revert p. induction xs as [|b xs IH]; intros p Hc Hin.
  - by apply elem_of_nil in Hin.
  - simpl in Hc. destruct Hc as [-> (q & Hq & Hc)].
    apply elem_of_cons in Hin as [->|Hin]; [|eauto].
    rewrite slot_val_NextOf in Hq. destruct (objects m !! b); [eauto|done].
Qed.

Lemma alloc_Done m o :
  exists c, objects m !! c = None /\
            alloc o m = Done (Some c, mkMemory (heads m) (<[c := o]> (objects m))).
Proof.
  exists (fresh (dom (objects m))). split; [|reflexivity].
  apply not_elem_of_dom. apply is_fresh.
Qed.

Tactic Notation "step" uconstr(H) := erewrite (bind_Done _ _ _ _ _ H).
Tactic Notation "step_read" uconstr(H) :=
  erewrite (bind_Done _ _ _ _ _ (read_Done _ _ _ H)).

(** The loop of [addCopyOfList]: with the list [ds] at the insertion point
    and the nodes [ss] still to be copied, the copies [cs] are allocated
    afresh, one per source node, and end up in front of [ds]. *)
Lemma addCopyOfList_loop_spec ss : forall fuel m l p ds,
  chain m p ss -> list_at m l ds ->
  (forall a, a ∈ ss -> l <> NextOf a) ->
  (length ss < fuel)%nat ->
  exists m' cs,
    addCopyOfList_loop copy_constructor fuel l p m = Done (tt, m') /\
    list_at m' l (cs ++ ds) /\
    Forall (fun c => objects m !! c = None) cs /\
    Forall2 (fun c a =>
               exists oc oa, objects m' !! c = Some oc /\
                             objects m' !! a = Some oa /\
                             payload oc = payload (copy_constructor oa)) cs ss /\
    updated_at l m m'.
Proof.
  induction ss as [|s ss IH]; intros fuel m l p ds Hc Hl Hfr Hf;
    (destruct fuel as [|fuel]; [simpl in Hf; lia|]); simpl in Hc.
  - subst p. exists m, []. repeat split; auto.
    intros a o Ha. by rewrite Ha.
  - destruct Hc as [-> (p' & Hs & Hc)]. cbn [addCopyOfList_loop].
    assert (Hso : exists o, objects m !! s = Some o).
    { rewrite slot_val_NextOf in Hs. destruct (objects m !! s); [eauto|done]. }
    destruct Hso as [o Ho].
    assert (Hderef : deref (Some s) m = Done (o, m)) by (unfold deref; by rewrite Ho).
    step Hderef.
    destruct (alloc_Done m (copy_constructor o)) as (c & Hc_fresh & Halloc).
    step Halloc.
    set (m1 := mkMemory (heads m) (<[c := copy_constructor o]> (objects m))).
    pose proof (updated_at_alloc m l (copy_constructor o) c Hc_fresh) as Hup1.
    fold m1 in Hup1.
    pose proof Hl as (pd & Hpd & Hcd).
    assert (Hc_none : slot_val m (NextOf c) = None)
      by (by rewrite slot_val_NextOf, Hc_fresh).
    assert (Hlc : l <> NextOf c) by (intros ->; congruence).
    assert (Hpd1 : slot_val m1 l = Some pd).
    { eapply (updated_at_slot_val (NextOf c)); [|done|exact Hpd].
      by apply updated_at_alloc. }
    assert (Hc1o : objects m1 !! c = Some (copy_constructor o))
      by apply lookup_insert_eq.
    assert (Hc1 : slot_val m1 (NextOf c) = Some None)
      by (by rewrite slot_val_NextOf, Hc1o; simpl; rewrite copy_unlinked).
    step (insertNext_Done m1 l pd c Hpd1 Hc1).
    set (m1' := store m1 (NextOf c) pd).
    set (m2 := store m1' l (Some c)).
    assert (Hup1' : updated_at l m m1').
    { eapply updated_at_trans; [exact Hup1 | apply updated_at_store | by right]. }
    assert (Hup2 : updated_at l m m2).
    { eapply updated_at_trans; [exact Hup1' | apply updated_at_store | by left]. }
    assert (Hc2 : slot_val m2 (NextOf c) = Some pd).
    { unfold m2. rewrite slot_val_store_ne by done.
      apply slot_val_store_eq. eauto. }
    assert (Hl2 : slot_val m2 l = Some (Some c)).
    { apply slot_val_store_eq. unfold m1'.
      rewrite slot_val_store_ne by done. eauto. }
    assert (Hs2 : slot_val m2 (NextOf s) = Some p').
    { eapply updated_at_slot_val; [exact Hup2| |exact Hs].
      intros <-. by apply (Hfr s); [left|]. }
    assert (Hfr_ds : forall d, d ∈ ds -> l <> NextOf d).
    { intros d Hd ->. by apply (list_at_next_notin _ _ _ Hl). }
    destruct (IH fuel m2 (NextOf c) p' ds) as (m' & cs & Hrun & Hl' & Hfresh & Hcopies & Hup').
    { eapply updated_at_chain; [exact Hup2| |exact Hc].
      intros a Ha. apply Hfr. by right. }
    { exists pd. split; [exact Hc2|]. eapply updated_at_chain; eauto. }
    { intros a Ha [= ->]. destruct (chain_allocated _ _ _ _ Hc Ha) as [? ?].
      congruence. }
    { simpl in Hf. lia. }
    step_read Hl2. cbn [next_slot]. unfold ret at 1. cbn [bind next_of].
    step_read Hs2.
    assert (Hup : updated_at l m m').
    { eapply updated_at_trans; [exact Hup2 | exact Hup' | by right]. }
    assert (Hc' : exists oc, objects m' !! c = Some oc /\
                             payload oc = payload (copy_constructor o)).
    { destruct Hup' as (_ & _ & Hp').
      assert (H1 : payload <$> objects m1' !! c = Some (payload (copy_constructor o))).
      { pose proof (updated_at_store m1 (NextOf c) pd) as (_ & _ & Hp1).
        exact (Hp1 _ _ Hc1o). }
      destruct (objects m1' !! c) as [o1|] eqn:E1; [|discriminate].
      assert (H2 : payload <$> objects m2 !! c = Some (payload o1)).
      { pose proof (updated_at_store m1' l (Some c)) as (_ & _ & Hp2).
        exact (Hp2 _ _ E1). }
      destruct (objects m2 !! c) as [o2|] eqn:E2; [|discriminate].
      specialize (Hp' _ _ E2).
      destruct (objects m' !! c) as [oc|] eqn:E3; [|discriminate].
      exists oc. split; [reflexivity|]. simpl in *. congruence. }
    exists m', (c :: cs). split; [exact Hrun|]. repeat split.
    + exists (Some c). split.
      * eapply updated_at_slot_val; [exact Hup' | done | exact Hl2].
      * simpl. split; [reflexivity|]. exact Hl'.
    + constructor; [exact Hc_fresh|].
      eapply Forall_impl; [exact Hfresh|]. intros c' Hc'2. simpl in Hc'2.
      destruct Hup2 as (_ & _ & Hp2).
      destruct (objects m !! c') as [o'|] eqn:E; [|reflexivity].
      specialize (Hp2 _ _ E). rewrite Hc'2 in Hp2. discriminate.
    + constructor; [|exact Hcopies].
      destruct Hc' as (oc & Hoc & Hpay). exists oc, o.
      split; [exact Hoc|]. split; [|exact Hpay].
      destruct Hup as (_ & Hobj & _). apply Hobj; [|exact Ho].
      apply Hfr. left.
    + apply Hup.
    + apply Hup.
    + apply Hup.
Qed.

(** [addCopyOfList]: the copies of the source nodes [ss], in source order,
    are put in front of the nodes [ds] that the destination held. *)
Lemma addCopyOfList_spec m this other ds ss fuel :
  list_at m this ds -> list_at m other ss ->
  (forall a, a ∈ ss -> this <> NextOf a) ->
  (length ss < fuel)%nat ->
  exists m' cs,
    addCopyOfList copy_constructor fuel this other m = Done (tt, m') /\
    list_at m' this (cs ++ ds) /\
    Forall (fun c => objects m !! c = None) cs /\
    Forall2 (fun c a =>
               exists oc oa, objects m' !! c = Some oc /\
                             objects m' !! a = Some oa /\
                             payload oc = payload (copy_constructor oa)) cs ss /\
    (other <> this -> list_at m' other ss).
Proof.
  intros Hl (p & Hp & Hc) Hfr Hf.
  destruct (addCopyOfList_loop_spec ss fuel m this p ds Hc Hl Hfr Hf)
    as (m' & cs & Hrun & Hl' & Hfresh & Hcopies & Hup).
  exists m', cs. unfold addCopyOfList. step_read Hp.
  repeat split; auto.
  intros Hne. exists p. split.
  - eapply updated_at_slot_val; eauto.
  - eapply updated_at_chain; eauto.
Qed.

End Copying.

(** ** The behaviour of the methods *)

Section Behaviour.

Context {V : Type}.
Implicit Types (m : Memory V) (l this : slot) (p q : ptr) (a b n : addr)
  (xs ys ns : list addr) (fuel : nat).

#[local] Arguments slot_val : simpl never.
#[local] Arguments store : simpl never.

(** C5 (as amended).  [replaceNext] asserts only on its argument.  Given a
    new node whose link field is empty: on an empty handle no
    PrecondViolation is signalled, the method goes on to read the link field
    of the null old item, which is undefined behaviour; on a handle that
    references the first node [a] of a list [a :: xs], it returns [a], the
    handle references the new node, the new node's link holds what [a]'s
    link held, [a]'s link is cleared, and (the new node not being one of
    [xs]) the list at the handle is the new node followed by [xs]. *)
Theorem replaceNext_spec m this n :
  slot_val m (NextOf n) = Some None ->
  (slot_val m this = Some None -> replaceNext this (Some n) m = Undefined) /\
  (forall a xs, list_at m this (a :: xs) ->
     exists m', replaceNext this (Some n) m = Done (Some a, m') /\
                slot_val m' this = Some (Some n) /\
                slot_val m' (NextOf n) = slot_val m (NextOf a) /\
                slot_val m' (NextOf a) = Some None /\
                (n ∉ xs -> list_at m' this (n :: xs))).
Proof.
  intros Hn. split; [by apply replaceNext_empty|].
  intros a xs Hl. pose proof Hl as (p & Hthis & Hc). simpl in Hc.
  destruct Hc as [-> (q & Ha & Hc)].
  assert (Hne : this <> NextOf a).
  { intros ->. apply (list_at_next_notin _ _ _ Hl). left. }
  assert (Hne' : this <> NextOf n) by (intros ->; congruence).
  eexists. split; [by eapply replaceNext_nonempty|].
  assert (Hthis' : slot_val (store (store (store m this (Some n)) (NextOf n) q)
                               (NextOf a) None) this = Some (Some n)).
  { rewrite !slot_val_store_ne by done. apply slot_val_store_eq. eauto. }
  assert (Hn' : slot_val (store (store (store m this (Some n)) (NextOf n) q)
                            (NextOf a) None) (NextOf n) = Some q).
  { destruct (decide (a = n)) as [->|Hna].
    - rewrite slot_val_store_eq; [congruence|].
      rewrite slot_val_store_eq; [eauto|].
      rewrite slot_val_store_ne by done. eauto.
    - rewrite slot_val_store_ne by congruence. apply slot_val_store_eq.
      rewrite slot_val_store_ne by done. eauto. }
  repeat split.
  - exact Hthis'.
  - by rewrite Ha.
  - apply slot_val_store_eq. destruct (decide (a = n)) as [->|Hna].
    + rewrite slot_val_store_eq; [eauto|].
      rewrite slot_val_store_ne by done. eauto.
    + rewrite !slot_val_store_ne by congruence. eauto.
  - intros Hnotin. exists (Some n). split; [exact Hthis'|].
    simpl. split; [reflexivity|]. exists q. split; [exact Hn'|].
    assert (Ha_notin : a ∉ xs).
    { apply (list_at_next_notin m). exists q. auto. }
    assert (Hthis_notin : forall b, b ∈ xs -> this <> NextOf b).
    { intros b Hb ->. apply (list_at_next_notin _ _ _ Hl). by right. }
    repeat apply chain_store_frame; try exact Hc.
    + intros b Hb [= ->]. done.
    + intros b Hb [= ->]. done.
    + exact Hthis_notin.
Qed.

(** C6.  Given an [n]-node list, an Appender constructed over its terminal
    slot (the slot [getLast] returns), and [k] distinct unlinked nodes that
    are not in the list: appending them through the Appender succeeds and
    leaves a list of length [n + k], the old nodes followed by the new ones
    in the order appended, in the very memory that [k] successive calls of
    [append] on the same handle produce.  Constructing an Appender over a
    slot that references a node is a PrecondViolation. *)
Theorem Appender_matches_append m this xs ns fuel :
  list_at m this xs ->
  Forall (fun n => slot_val m (NextOf n) = Some None) ns ->
  NoDup ns ->
  (forall n, n ∈ ns -> n ∉ xs) ->
  (forall n, n ∈ ns -> this <> NextOf n) ->
  (length xs + length ns < fuel)%nat ->
  (exists tail ap m',
     getLast fuel this m = Done (tail, m) /\
     (let* ap0 := Appender_new tail in Appender_append_all ap0 ns) m
     = Done (ap, m') /\
     list_at m' this (xs ++ ns) /\
     (length (xs ++ ns) = length xs + length ns)%nat /\
     append_all fuel this ns m = Done (tt, m')) /\
  (forall l a, slot_val m l = Some (Some a) ->
               Appender_new l m = PrecondViolation).
Proof.
  intros Hl Hns Hnd Hfresh Hthis Hf. split.
  - destruct (appends_agree this fuel ns m xs) as (m' & Hap & Hseq & Hl'); auto.
    exists (terminal_slot this xs), (mkAppender (terminal_slot this (xs ++ ns))), m'.
    split; [apply getLast_spec; [exact Hl | lia]|].
    split; [|split; [exact Hl'|split; [apply length_app | exact Hseq]]].
    rewrite (bind_Done _ _ _ _ _ (Appender_new_Done _ _ (terminal_slot_val _ _ _ Hl))).
    exact Hap.
  - intros l a. apply Appender_new_nonempty.
Qed.

(** C7.  On a list [xs], for an index from 0 up to INT_MAX, [operator[]]
    returns a slot without failing: for an index at or past the length it is
    the terminal slot, the one [getLast] returns, which holds the null
    pointer; for an index below the length it is the slot at that position,
    which holds the node of that index; on the empty list it is the handle
    itself. *)
Theorem subscript_clamps m this xs fuel index :
  list_at m this xs -> 0 <= index <= Int.INT_MAX -> (length xs < fuel)%nat ->
  exists l, subscript fuel this index m = Done (l, m) /\
    (Z.of_nat (length xs) <= index ->
       l = terminal_slot this xs /\ getLast fuel this m = Done (l, m) /\
       slot_val m l = Some None) /\
    (index < Z.of_nat (length xs) ->
       l = slot_at this xs (Z.to_nat index) /\
       exists a, xs !! Z.to_nat index = Some a /\ slot_val m l = Some (Some a)) /\
    (xs = [] -> l = this).
Proof.
  intros Hl Hi Hf. exists (slot_at this xs (Z.to_nat index)).
  split; [by apply subscript_spec|]. repeat split.
  - apply slot_at_ge. lia.
  - rewrite slot_at_ge by lia. by apply getLast_spec.
  - rewrite slot_at_ge by lia. by apply terminal_slot_val.
  - destruct (lookup_lt_is_Some_2 xs (Z.to_nat index)) as [a Ha]; [lia|].
    exists a. split; [exact Ha|]. rewrite <- Ha. apply slot_at_val; [exact Hl | lia].
  - intros ->. apply slot_at_nil.
Qed.

(** C8.  On a handle that references no node, [size] returns 0, [get]
    returns the null pointer and [contains] returns false for every node;
    none of them fails or changes the memory. *)
Theorem empty_handle_queries m this fuel :
  slot_val m this = Some None -> (0 < fuel)%nat ->
  size fuel this m = Done (0, m) /\
  get this m = Done (None, m) /\
  (forall node, contains fuel this node m = Done (false, m)).
Proof.
  intros Hthis Hf. destruct fuel as [|fuel]; [lia|].
  unfold size, get, contains. repeat split.
  - by rewrite (bind_Done _ _ _ _ _ (read_Done _ _ _ Hthis)).
  - by apply read_Done.
  - intros node. by rewrite (bind_Done _ _ _ _ _ (read_Done _ _ _ Hthis)).
Qed.

(** C9.  [append] and [Appender::append] assert nothing about the new
    node's link field.  Given a list [xs] at the handle and a node [n] from
    which a chain [ys] hangs that shares no node with [xs]: both calls
    succeed and store [n] into the terminal slot, the list at the handle
    becomes [xs ++ ys], and its [size] is the old size plus the size counted
    from [n].  [insertNext] rejects the same node as soon as its link field
    is not empty. *)
Theorem append_links_whole_chain m this xs n ys fuel :
  list_at m this xs ->
  chain m (Some n) ys ->
  (forall a, a ∈ ys -> a ∉ xs) ->
  (forall a, a ∈ ys -> this <> NextOf a) ->
  (length xs + length ys < fuel)%nat ->
  exists m' s1 s2,
    append fuel this (Some n) m = Done (tt, m') /\
    (let* ap := Appender_new (terminal_slot this xs) in
     Appender_append ap (Some n)) m = Done (mkAppender (NextOf n), m') /\
    list_at m' this (xs ++ ys) /\
    size fuel this m = Done (s1, m) /\
    size_loop fuel (Some n) 0 m = Done (s2, m) /\
    size fuel this m' = Done (Int.add s1 s2, m') /\
    (forall b, slot_val m (NextOf n) = Some (Some b) ->
               insertNext this (Some n) m = PrecondViolation).
Proof.
  intros Hl Hc Hdisj Hthis Hf.
  exists (store m (terminal_slot this xs) (Some n)),
         (Int.wrap (Z.of_nat (length xs))), (Int.wrap (Z.of_nat (length ys))).
  assert (Hl' : list_at (store m (terminal_slot this xs) (Some n)) this (xs ++ ys)).
  { apply list_at_store_terminal; auto.
    intros a Ha. apply terminal_slot_ne; auto. }
  split; [apply append_Done; [exact Hl | lia]|].
  split.
  { rewrite (bind_Done _ _ _ _ _ (Appender_new_Done _ _ (terminal_slot_val _ _ _ Hl))).
    eapply Appender_append_Done. by apply terminal_slot_val. }
  split; [exact Hl'|].
  split; [apply size_spec; [exact Hl | lia]|].
  split.
  { rewrite (size_loop_spec _ _ _ _ _ Hc) by lia.
    change 0 with (Int.wrap 0) at 1. by rewrite IntFacts.iter_inc. }
  split.
  { rewrite (size_spec _ _ _ _ Hl') by (rewrite length_app; lia).
    unfold Int.add.
    rewrite IntFacts.wrap_add_l, IntFacts.wrap_add_r, length_app, Nat2Z.inj_add.
    reflexivity. }
  intros b. apply insertNext_linked.
Qed.

(** C10 (as amended).  For every index with INT_MIN < index <= 0,
    [operator[]] and its const overload return the handle itself, as for
    index 0, without reading the memory and without failing. *)
Theorem subscript_nonpositive m this fuel index :
  Int.INT_MIN < index <= 0 -> (0 < fuel)%nat ->
  subscript fuel this index m = Done (this, m) /\
  subscript_const fuel this index m = Done (this, m) /\
  subscript fuel this index m = subscript fuel this 0 m.
Proof.
  intros Hi Hf. destruct fuel as [|fuel]; [lia|].
  assert (H : forall i, Int.INT_MIN < i <= 0 ->
                        subscript (S fuel) this i m = Done (this, m)).
  { intros i Hi'. cbn [subscript].
    rewrite IntFacts.dec_no_overflow by (unfold Int.INT_MAX; lia).
    destruct (Z.leb_spec 0 (i - 1)); [lia | reflexivity]. }
  unfold subscript_const. rewrite !H; auto.
  unfold Int.INT_MIN. lia.
Qed.

End Behaviour.

(** ** The methods on concrete lists *)

Module Runs.
Import Scenario.

(** Closes [list_at m l xs] and [chain m p xs] on a concrete memory. *)
Ltac show_chain :=
  repeat first
    [ reflexivity
    | progress cbn [chain]
    | match goal with
      | |- list_at _ _ _ => eexists; split; [vm_compute; reflexivity|]
      | |- _ /\ _ => split
      | |- exists _, _ => eexists
      | |- slot_val _ _ = Some _ => vm_compute; reflexivity
      end ].

Lemma m_A_list : list_at m_A list1 [nA].
Proof. show_chain. Qed.

Lemma m_AB_list : list_at m_AB list1 [nA; nB].
Proof. show_chain. Qed.

Lemma m_B_list : list_at m_B list1 [nB].
Proof. show_chain. Qed.

Lemma m_ABC_list : list_at m_ABC list1 [nA; nB; nC].
Proof. show_chain. Qed.

Lemma m_empty_list : list_at m_empty list1 [].
Proof. show_chain. Qed.

Lemma m_dest_src_lists :
  list_at m_dest_src list1 [nA] /\ list_at m_dest_src list2 [nB; nC].
Proof. split; show_chain. Qed.

(** C1.  [removeNext] on the list [A,B]: it returns A with A's link cleared,
    but the handle is left holding the null pointer, not B, which used to
    follow A; B is no longer reachable from the handle. *)
Theorem removeNext_loses_remainder :
  list_at m_AB list1 [nA; nB] /\
  exists m',
    removeNext list1 m_AB = Done (Some nA, m') /\
    m' = memory [(0%nat, None)] [(nA, node 10 None); (nB, node 20 None)] /\
    slot_val m' list1 = Some None /\
    slot_val m' list1 <> Some (Some nB) /\
    slot_val m' (NextOf nA) = Some None /\
    list_at m' list1 [].
Proof.
  split; [exact m_AB_list|].
  exists (memory [(0%nat, None)] [(nA, node 10 None); (nB, node 20 None)]).
  split; [vm_compute; reflexivity|].
  repeat split; try (vm_compute; congruence). show_chain.
Qed.

(** C2.  [insertNext] of the unlinked node A on the list [B], followed at
    once by [removeNext] on the same handle: the node returned is A, but the
    list at the handle is now empty instead of [B] as before the
    insertion. *)
Theorem insertNext_removeNext_empties :
  list_at m_B list1 [nB] /\
  slot_val m_B (NextOf nA) = Some None /\
  exists m',
    (exec insertNext list1 (Some nA) in removeNext list1) m_B
    = Done (Some nA, m') /\
    m' = memory [(0%nat, None)] [(nA, node 10 None); (nB, node 20 None)] /\
    list_at m' list1 [] /\
    ~ list_at m' list1 [nB].
Proof.
  split; [exact m_B_list|]. split; [reflexivity|].
  exists (memory [(0%nat, None)] [(nA, node 10 None); (nB, node 20 None)]).
  split; [vm_compute; reflexivity|]. split; [reflexivity|].
  split; [show_chain|]. intros (p & Hp & Hc). vm_compute in Hp.
  injection Hp as <-. simpl in Hc. destruct Hc as [? _]. discriminate.
Qed.

(** C3.  [remove (B)] on the list [A,B,C]: B is unlinked and its link is
    cleared, but the list at the handle is left as [A], not [A,C]; C is no
    longer reachable, and [contains (C)] is false afterwards. *)
Theorem remove_middle_drops_tail :
  list_at m_ABC list1 [nA; nB; nC] /\
  exists m',
    remove 4 list1 (Some nB) m_ABC = Done (tt, m') /\
    list_at m' list1 [nA] /\
    ~ list_at m' list1 [nA; nC] /\
    contains 4 list1 (Some nB) m' = Done (false, m') /\
    contains 4 list1 (Some nC) m' = Done (false, m') /\
    slot_val m' (NextOf nB) = Some None.
Proof.
  split; [exact m_ABC_list|].
  exists (memory [(0%nat, Some nA)]
                 [(nA, node 10 None); (nB, node 20 None); (nC, node 30 None);
                  (nX, node 40 None)]).
  split; [vm_compute; reflexivity|]. split; [show_chain|].
  split; [|repeat split; vm_compute; reflexivity].
  intros H. assert (H' : list_at
    (memory [(0%nat, Some nA)]
            [(nA, node 10 None); (nB, node 20 None); (nC, node 30 None);
             (nX, node 40 None)]) list1 [nA]) by show_chain.
  destruct H as (p & Hp & Hc), H' as (p' & Hp' & Hc').
  rewrite Hp in Hp'. injection Hp' as <-.
  pose proof (chain_functional _ _ _ _ Hc Hc'). discriminate.
Qed.

(** C4.  [addCopyOfList] with the destination list [A] and the source list
    [B,C]: two new nodes are allocated, with the payloads of B and C, but
    they are spliced in at the head of the destination, so the list becomes
    [B',C',A] and not [A,B',C']. *)
Theorem addCopyOfList_inserts_at_head :
  list_at m_dest_src list1 [nA] /\
  list_at m_dest_src list2 [nB; nC] /\
  exists m' (b' c' : addr),
    addCopyOfList copy_payload 3 list1 list2 m_dest_src = Done (tt, m') /\
    objects m_dest_src !! b' = None /\ objects m_dest_src !! c' = None /\
    payload <$> objects m' !! b' = Some 20 /\
    payload <$> objects m' !! c' = Some 30 /\
    list_at m' list1 [b'; c'; nA] /\
    ~ list_at m' list1 [nA; b'; c'] /\
    list_at m' list2 [nB; nC].
Proof.
  split; [apply m_dest_src_lists|]. split; [apply m_dest_src_lists|].
  exists (memory [(0%nat, Some 4%positive); (1%nat, Some nB)]
                 [(nA, node 10 None); (nB, node 20 (Some nC)); (nC, node 30 None);
                  (4%positive, node 20 (Some 5%positive));
                  (5%positive, node 30 (Some nA))]),
         4%positive, 5%positive.
  split; [vm_compute; reflexivity|].
  do 4 (split; [reflexivity|]). split; [show_chain|]. split; [|show_chain].
  intros (p & Hp & Hc). vm_compute in Hp. injection Hp as <-.
  simpl in Hc. destruct Hc as [? _]. discriminate.
Qed.

(** C5, the claim as stated fails: on the empty list, with the unlinked node
    X, [replaceNext] does not signal a PrecondViolation. *)
Lemma replaceNext_empty_handle_unchecked :
  slot_val m_empty list1 = Some None /\
  slot_val m_empty (NextOf nX) = Some None /\
  replaceNext list1 (Some nX) m_empty = Undefined /\
  replaceNext list1 (Some nX) m_empty <> PrecondViolation.
Proof. repeat split; try reflexivity. vm_compute. discriminate. Qed.

Lemma replaceNext_spec_witness :
  replaceNext list1 (Some nX) m_empty = Undefined /\
  exists m', replaceNext list1 (Some nX) m_A = Done (Some nA, m') /\
             slot_val m' list1 = Some (Some nX) /\
             slot_val m' (NextOf nX) = slot_val m_A (NextOf nA) /\
             slot_val m' (NextOf nA) = Some None /\
             list_at m' list1 [nX].
Proof.
  split.
  - apply (replaceNext_spec m_empty list1 nX); reflexivity.
  - destruct (proj2 (replaceNext_spec m_A list1 nX eq_refl) nA [] m_A_list)
      as (m' & Hrun & Hthis & Hnew & Hold & Hlist).
    exists m'. split; [exact Hrun|]. split; [exact Hthis|].
    split; [exact Hnew|]. split; [exact Hold|]. apply Hlist, not_elem_of_nil.
Defined.

Lemma Appender_matches_append_witness :
  (exists tail ap m',
     getLast 5 list1 m_ABC = Done (tail, m_ABC) /\
     (let* ap0 := Appender_new tail in Appender_append_all ap0 [nX]) m_ABC
     = Done (ap, m') /\
     list_at m' list1 ([nA; nB; nC] ++ [nX]) /\
     (length ([nA; nB; nC] ++ [nX]) = length [nA; nB; nC] + length [nX])%nat /\
     append_all 5 list1 [nX] m_ABC = Done (tt, m')) /\
  Appender_new list1 m_ABC = PrecondViolation.
Proof.
  cut (list_at m_ABC list1 [nA; nB; nC] /\
       Forall (fun n => slot_val m_ABC (NextOf n) = Some None) [nX] /\
       NoDup [nX] /\
       (forall n, n ∈ [nX] -> n ∉ [nA; nB; nC]) /\
       (forall n, n ∈ [nX] -> list1 <> NextOf n) /\
       (length [nA; nB; nC] + length [nX] < 5)%nat).
  { intros (H1 & H2 & H3 & H4 & H5 & H6).
    destruct (Appender_matches_append m_ABC list1 [nA; nB; nC] [nX] 5
                H1 H2 H3 H4 H5 H6) as [Hrun Hnew].
    split; [exact Hrun|]. exact (Hnew list1 nA eq_refl). }
  refine (conj _ (conj _ (conj _ (conj _ (conj _ _))))).
  - show_chain.
  - repeat constructor.
  - apply NoDup_singleton.
  - intros n Hn Hin. apply list_elem_of_singleton in Hn. subst n.
    repeat (apply elem_of_cons in Hin as [Hin|Hin]; [discriminate|]).
    by apply elem_of_nil in Hin.
  - intros n _ H. discriminate H.
  - simpl. lia.
Defined.

Lemma subscript_clamps_witness :
  subscript 1 list1 5 m_empty = Done (list1, m_empty) /\
  subscript 4 list1 1 m_ABC = Done (NextOf nA, m_ABC) /\
  subscript 4 list1 7 m_ABC = Done (NextOf nC, m_ABC).
Proof.
  split; [|split].
  - destruct (subscript_clamps m_empty list1 [] 1 5) as (l & H & _ & _ & Hl).
    + show_chain.
    + vm_compute. split; discriminate.
    + simpl. lia.
    + rewrite H, (Hl eq_refl). reflexivity.
  - destruct (subscript_clamps m_ABC list1 [nA; nB; nC] 4 1) as (l & H & _ & Hl & _).
    + show_chain.
    + vm_compute. split; discriminate.
    + simpl. lia.
    + rewrite H. destruct Hl as [-> _]; [simpl; lia | reflexivity].
  - destruct (subscript_clamps m_ABC list1 [nA; nB; nC] 4 7) as (l & H & Hl & _ & _).
    + show_chain.
    + vm_compute. split; discriminate.
    + simpl. lia.
    + rewrite H. destruct Hl as [-> _]; [simpl; lia | reflexivity].
Defined.

Lemma empty_handle_queries_witness :
  size 1 list1 m_empty = Done (0, m_empty) /\
  get list1 m_empty = Done (None, m_empty) /\
  (forall node, contains 1 list1 node m_empty = Done (false, m_empty)).
Proof. apply (empty_handle_queries m_empty list1 1); [reflexivity | lia]. Defined.

Lemma append_links_whole_chain_witness :
  exists m' s1 s2,
    append 4 list1 (Some nB) m_dest_src = Done (tt, m') /\
    (let* ap := Appender_new (terminal_slot list1 [nA]) in
     Appender_append ap (Some nB)) m_dest_src = Done (mkAppender (NextOf nB), m') /\
    list_at m' list1 ([nA] ++ [nB; nC]) /\
    size 4 list1 m_dest_src = Done (s1, m_dest_src) /\
    size_loop 4 (Some nB) 0 m_dest_src = Done (s2, m_dest_src) /\
    size 4 list1 m' = Done (Int.add s1 s2, m') /\
    insertNext list1 (Some nB) m_dest_src = PrecondViolation.
Proof.
  cut (list_at m_dest_src list1 [nA] /\
       chain m_dest_src (Some nB) [nB; nC] /\
       (forall a, a ∈ [nB; nC] -> a ∉ [nA]) /\
       (forall a, a ∈ [nB; nC] -> list1 <> NextOf a) /\
       (length [nA] + length [nB; nC] < 4)%nat).
  { intros (H1 & H2 & H3 & H4 & H5).
    destruct (append_links_whole_chain m_dest_src list1 [nA] nB [nB; nC] 4
                H1 H2 H3 H4 H5)
      as (m' & s1 & s2 & Ha & Hb & Hc & Hd & He & Hf & Hg).
    exists m', s1, s2. repeat (split; [assumption|]). exact (Hg nC eq_refl). }
  refine (conj _ (conj _ (conj _ (conj _ _)))).
  - show_chain.
  - show_chain.
  - intros a Ha Hin. apply list_elem_of_singleton in Hin. subst a.
    repeat (apply elem_of_cons in Ha as [Ha|Ha]; [discriminate|]).
    by apply elem_of_nil in Ha.
  - intros a _ H. discriminate H.
  - simpl. lia.
Defined.

(** C10, the claim as stated fails at the least index: on the list [A,B,C],
    [operator[]] with INT_MIN does not return the handle; the decrement
    wraps round to INT_MAX and the walk runs to the terminal slot. *)
Lemma subscript_INT_MIN_walks :
  Int.INT_MIN <= 0 /\
  subscript 4 list1 Int.INT_MIN m_ABC = Done (NextOf nC, m_ABC) /\
  forall fuel, subscript fuel list1 Int.INT_MIN m_ABC <> Done (list1, m_ABC).
Proof.
  split; [vm_compute; discriminate|]. split; [vm_compute; reflexivity|].
  intros [|[|[|[|fuel]]]]; vm_compute; discriminate.
Qed.

Lemma subscript_nonpositive_witness :
  subscript 1 list1 (-3) m_ABC = Done (list1, m_ABC) /\
  subscript_const 1 list1 (-3) m_ABC = Done (list1, m_ABC) /\
  subscript 1 list1 (-3) m_ABC = subscript 1 list1 0 m_ABC.
Proof.
  apply (subscript_nonpositive m_ABC list1 1 (-3)); [|lia].
  vm_compute. split; [reflexivity | discriminate].
Defined.

End Runs.


(** ** Further facts about the methods *)

Section Laws.

Context {V : Type}.
Implicit Types (m : Memory V) (l this : slot) (p q : ptr) (a b n : addr)
  (xs ys ns : list addr) (fuel : nat).

#[local] Arguments slot_val : simpl never.
#[local] Arguments store : simpl never.

Tactic Notation "run" uconstr(H) := erewrite (bind_Done _ _ _ _ _ H).
Tactic Notation "run_read" uconstr(H) :=
  erewrite (bind_Done _ _ _ _ _ (read_Done _ _ _ H)).
Tactic Notation "run_write" uconstr(H) :=
  erewrite (bind_Done _ _ _ _ _ (write_Done _ _ _ _ H)).

(** The slot at position [i] heads the rest of the list from there on. *)
Lemma list_at_slot_at m l xs i :
  list_at m l xs -> list_at m (slot_at l xs i) (drop i xs).
Proof.
  revert l i. induction xs as [|a xs IH]; intros l i Hl.
  - by rewrite slot_at_nil, drop_nil.
  - destruct i as [|i]; [by rewrite slot_at_0|]. simpl. apply IH.
    destruct Hl as (p & Hp & Hc). simpl in Hc.
    destruct Hc as [-> (q & Hq & Hc)]. exists q. auto.
Qed.

Lemma slot_at_add l xs i j :
  slot_at (slot_at l xs i) (drop i xs) j = slot_at l xs (i + j).
Proof.
  revert l i. induction xs as [|a xs IH]; intros l i.
  - by rewrite drop_nil, !slot_at_nil.
  - destruct i as [|i]; [by rewrite slot_at_0|]. simpl. apply IH.
Qed.

Lemma store_store m l p q : store (store m l p) l q = store m l q.
Proof.
  destruct m as [hs os], l as [k|a]; unfold store; cbn [heads objects]; f_equal.
  - apply insert_insert_eq.
  - rewrite alter_alter_eq. by apply alter_ext.
Qed.

Lemma list_at_store_frame m l xs l' q :
  list_at m l xs -> l' <> l -> (forall a, a ∈ xs -> l' <> NextOf a) ->
  list_at (store m l' q) l xs.
Proof.
  intros (p & Hp & Hc) Hne Hfr. exists p. split.
  - by rewrite slot_val_store_ne.
  - by apply chain_store_frame.
Qed.

(** [insertNext] applied to the slot at position [i] of a list puts the new
    node at that position. *)
Lemma insertNext_at m this xs n i :
  list_at m this xs -> slot_val m (NextOf n) = Some None ->
  n ∉ xs -> this <> NextOf n ->
  exists m', insertNext (slot_at this xs i) (Some n) m = Done (tt, m') /\
             list_at m' this (take i xs ++ n :: drop i xs).
Proof.
  intros Hl Hn Hnotin Hthis.
  pose proof (list_at_slot_at m this xs i Hl) as Hs.
  pose proof Hs as (p & Hp & Hc).
  assert (Hsn : slot_at this xs i <> NextOf n).
  { destruct (slot_at_cases this xs i) as [->|(a & Ha & ->)]; [done|].
    intros [= ->]. done. }
  assert (Hsub : forall a, a ∈ drop i xs -> a ∈ xs).
  { intros a Ha. by apply (subseteq_drop i xs). }
  eexists. split; [by apply insertNext_Done|].
  apply list_at_store_slot_at.
  - apply list_at_store_frame; [exact Hl | congruence |].
    intros a Ha [= ->]. done.
  - simpl. split; [reflexivity|]. exists p. split.
    + apply slot_val_store_eq. eauto.
    + apply chain_store_frame; [|exact Hc]. intros a Ha [= ->]. auto.
  - intros a [->|Ha]%elem_of_cons; [exact Hsn|].
    intros Heq. apply (list_at_next_notin m a (drop i xs)); [|exact Ha].
    by rewrite <- Heq.
Qed.

Lemma insertAtIndex_loop_nonneg m l xs fuel index :
  list_at m l xs -> 0 <= index <= Int.INT_MAX -> (length xs < fuel)%nat ->
  insertAtIndex_loop fuel l index m = Done (slot_at l xs (Z.to_nat index), m).
Proof.
  revert l fuel index.
  induction xs as [|a xs IH]; intros l fuel index (p & Hp & Hc) Hi Hf;
    (destruct fuel as [|fuel]; [simpl in Hf; lia|]); cbn [insertAtIndex_loop];
    case_bool_decide as Hz.
  - simpl in Hc. subst p. run_read Hp. by rewrite slot_at_nil.
  - by rewrite slot_at_nil.
  - simpl in Hc. destruct Hc as [-> (q & Hq & Hc)]. run_read Hp.
    rewrite IntFacts.dec_no_overflow by (unfold Int.INT_MIN; lia).
    rewrite (IH (NextOf a) fuel (index - 1)); [|exists q; auto|lia|simpl in Hf; lia].
    replace (Z.to_nat index) with (S (Z.to_nat (index - 1))) by lia. reflexivity.
  - replace index with 0 by lia. reflexivity.
Qed.



Lemma size_exact m this xs fuel :
  list_at m this xs -> Z.of_nat (length xs) <= Int.INT_MAX ->
  (length xs < fuel)%nat ->
  size fuel this m = Done (Z.of_nat (length xs), m).
Proof.
  intros Hl Hlen Hf. rewrite (size_spec _ _ _ _ Hl Hf).
  rewrite IntFacts.wrap_in_range; [reflexivity|].
  unfold Int.in_range, Int.INT_MIN. lia.
Qed.

(** X1.  On a list of at most INT_MAX nodes, [size] returns the number of
    nodes and leaves the memory as it is. *)
Theorem size_counts_nodes m this xs fuel :
  list_at m this xs -> Z.of_nat (length xs) <= Int.INT_MAX ->
  (length xs < fuel)%nat ->
  size fuel this m = Done (Z.of_nat (length xs), m).
Proof.
  intros (p & Hp & Hc) Hlen Hf. unfold size.
  rewrite (bind_Done _ _ _ _ _ (read_Done _ _ _ Hp)).
  rewrite (size_loop_spec _ _ _ _ _ Hc Hf).
  change 0 with (Int.wrap 0) at 1. rewrite IntFacts.iter_inc.
  rewrite IntFacts.wrap_in_range; [reflexivity|].
  unfold Int.in_range, Int.INT_MIN. lia.
Qed.

(** X2.  [contains] compares by reference: it returns true exactly for the
    nodes of the list, and false for the null pointer. *)
Theorem contains_reference_identity m this xs fuel :
  list_at m this xs -> (length xs < fuel)%nat ->
  (forall a, contains fuel this (Some a) m = Done (bool_decide (a ∈ xs), m)) /\
  contains fuel this None m = Done (false, m).
Proof.
  intros Hl Hf. split.
  - intros a. by rewrite (contains_spec _ _ _ _ (Some a) Hl Hf).
  - by rewrite (contains_spec _ _ _ _ None Hl Hf).
Qed.

(** X3.  [getLast] returns the slot after the last node, never the last node:
    the slot returned holds the null pointer, so [get] on it gives null also
    for a non-empty list.  It is the handle itself for an empty list and the
    link field of the last node otherwise, and [getLast] applied to it
    returns it again. *)
Theorem getLast_returns_empty_slot m this xs fuel :
  list_at m this xs -> (length xs < fuel)%nat ->
  exists l, getLast fuel this m = Done (l, m) /\
            (let* l' := getLast fuel this in get l') m = Done (None, m) /\
            (xs = [] -> l = this) /\
            (forall a, last xs = Some a -> l = NextOf a) /\
            getLast fuel l m = Done (l, m).
Proof.
  intros Hl Hf. exists (terminal_slot this xs).
  pose proof (getLast_spec _ _ _ _ Hl Hf) as Hg.
  pose proof (terminal_slot_val _ _ _ Hl) as Hv.
  split; [exact Hg|]. split; [run Hg; by apply read_Done|].
  split; [by intros ->|]. split.
  - intros a Ha. destruct (terminal_slot_cases this xs) as [[-> _]|(b & Hb & ->)];
      [discriminate | congruence].
  - apply (getLast_spec m _ []); [|simpl; lia]. exists None. split; [exact Hv | reflexivity].
Qed.

(** X4.  [insertNext] of an unlinked node that is not in the list puts it in
    front: the list at the handle becomes the new node followed by the old
    nodes. *)
Theorem insertNext_prepends m this xs n :
  list_at m this xs -> slot_val m (NextOf n) = Some None ->
  n ∉ xs -> this <> NextOf n ->
  exists m', insertNext this (Some n) m = Done (tt, m') /\
             list_at m' this (n :: xs) /\
             get this m' = Done (Some n, m').
Proof.
  intros Hl Hn Hnotin Hthis.
  destruct (insertNext_at m this xs n 0 Hl Hn Hnotin Hthis) as (m' & Hrun & Hl').
  rewrite slot_at_0 in Hrun. rewrite take_0, drop_0 in Hl'. simpl in Hl'.
  exists m'. split; [exact Hrun|]. split; [exact Hl'|].
  destruct Hl' as (p & Hp & Hc). simpl in Hc. destruct Hc as [-> _].
  by apply read_Done.
Qed.

(** X5.  [insertNext] asserts on its argument before it touches the list: a
    null node, and a node whose link field is not empty, are each a
    PrecondViolation. *)
Theorem insertNext_asserts m this :
  insertNext this None m = PrecondViolation /\
  (forall n b, slot_val m (NextOf n) = Some (Some b) ->
               insertNext this (Some n) m = PrecondViolation).
Proof.
  split; [reflexivity|].
  intros n b Hn. unfold insertNext.
  rewrite bool_decide_eq_true_2 by done.
  unfold jassert at 1. cbn [bind next_of]. run_read Hn. reflexivity.
Qed.

(** X6.  [insertAtIndex] with an index from 0 to INT_MAX puts an unlinked
    node that is not in the list at that position, and at the end when the
    index is at or past the length. *)
Theorem insertAtIndex_position m this xs n fuel index :
  list_at m this xs -> slot_val m (NextOf n) = Some None ->
  n ∉ xs -> this <> NextOf n ->
  0 <= index <= Int.INT_MAX -> (length xs < fuel)%nat ->
  exists m', insertAtIndex fuel this index (Some n) m = Done (tt, m') /\
             list_at m' this (take (Z.to_nat index) xs ++ n
                              :: drop (Z.to_nat index) xs) /\
             (Z.of_nat (length xs) <= index -> list_at m' this (xs ++ [n])).
Proof.
  intros Hl Hn Hnotin Hthis Hi Hf.
  destruct (insertNext_at m this xs n (Z.to_nat index) Hl Hn Hnotin Hthis)
    as (m' & Hrun & Hl').
  exists m'. split; [|split; [exact Hl'|]].
  - unfold insertAtIndex. rewrite bool_decide_eq_true_2 by done.
    unfold jassert at 1. cbn [bind].
    run (insertAtIndex_loop_nonneg _ _ _ _ _ Hl Hi Hf). exact Hrun.
  - intros Hge. rewrite take_ge, drop_ge in Hl' by lia. exact Hl'.
Qed.


(** X8.  For an index from 0 to INT_MAX, [insertAtIndex] is [insertNext] on
    the slot [operator[]] returns for that index, whatever the node. *)
Theorem insertAtIndex_is_subscript_insertNext m this xs fuel index n :
  list_at m this xs -> 0 <= index <= Int.INT_MAX -> (length xs < fuel)%nat ->
  insertAtIndex fuel this index (Some n) m
  = (let* l := subscript fuel this index in insertNext l (Some n)) m.
Proof.
  intros Hl Hi Hf. unfold insertAtIndex.
  rewrite bool_decide_eq_true_2 by done. unfold jassert at 1. cbn [bind].
  run (insertAtIndex_loop_nonneg _ _ _ _ _ Hl Hi Hf).
  run (subscript_spec _ _ _ _ _ Hl Hi Hf). reflexivity.
Qed.

(** X9.  [removeNext] where nothing follows the head: on an empty handle it
    returns null and changes nothing; on a one-node list it returns the node
    and the only change is that the handle now holds null. *)
Theorem removeNext_nothing_follows m this :
  (slot_val m this = Some None -> removeNext this m = Done (None, m)) /\
  (forall a, list_at m this [a] ->
             removeNext this m = Done (Some a, store m this None) /\
             list_at (store m this None) this [] /\
             slot_val (store m this None) (NextOf a) = Some None).
Proof.
  split; [apply removeNext_empty|].
  intros a Hl. pose proof Hl as (p & Hp & Hc). simpl in Hc.
  destruct Hc as [-> (q & Hq & ->)].
  assert (Hne : this <> NextOf a).
  { intros ->. apply (list_at_next_notin _ _ _ Hl). left. }
  rewrite (removeNext_nonempty _ _ _ _ Hp Hq Hne), (store_same _ _ _ Hq).
  split; [reflexivity|]. split.
  - exists None. split; [|reflexivity]. apply slot_val_store_eq. eauto.
  - by rewrite slot_val_store_ne.
Qed.

(** X10.  [remove] of a node that is not in the list, or of the null pointer,
    changes nothing. *)
Theorem remove_absent_noop m this xs fuel (t : ptr) :
  list_at m this xs -> (length xs < fuel)%nat ->
  (forall a, t = Some a -> a ∉ xs) ->
  remove fuel this t m = Done (tt, m).
Proof.
  intros Hl Hf Ht. apply (remove_absent _ _ xs); auto.
  destruct t as [a|]; [|reflexivity]. simpl.
  apply bool_decide_eq_false_2. by apply Ht.
Qed.

(** X11.  [remove] of the last node of a list unlinks exactly that node: the
    nodes before it stay, in order, and the removed node's link is empty. *)
Theorem remove_last_node m this xs a fuel :
  list_at m this (xs ++ [a]) -> (length xs + 1 < fuel)%nat ->
  exists m', remove fuel this (Some a) m = Done (tt, m') /\
             list_at m' this xs /\
             slot_val m' (NextOf a) = Some None.
Proof.
  intros Hl Hf.
  destruct (remove_present m this (xs ++ [a]) fuel (length xs) a Hl)
    as (m' & Hrun & Hl' & Ha).
  - rewrite length_app. simpl. lia.
  - by rewrite list_lookup_middle.
  - exists m'. rewrite take_app_length in Hl'. auto.
Qed.

(** X12.  [findPointerTo] returns the slot that references the node looked
    for, which is the slot [operator[]] returns for the node's index; for a
    node that is not in the list, and for the null pointer, it returns
    null.  The memory is left as it is. *)
Theorem findPointerTo_locates m this xs fuel :
  list_at m this xs -> (length xs < fuel)%nat ->
  (forall i a, xs !! i = Some a ->
     exists l, findPointerTo fuel this (Some a) m = Done (Some l, m) /\
               slot_val m l = Some (Some a) /\
               (Z.of_nat i <= Int.INT_MAX ->
                subscript fuel this (Z.of_nat i) m = Done (l, m))) /\
  (forall t : ptr, (forall a, t = Some a -> a ∉ xs) ->
     findPointerTo fuel this t m = Done (None, m)).
Proof.
  intros Hl Hf. split.
  - intros i a Hi. exists (slot_at this xs i).
    assert (Hlen : (i < length xs)%nat) by (by eapply lookup_lt_Some).
    split; [by eapply findPointerTo_present|]. split.
    + rewrite <- Hi. apply slot_at_val; [exact Hl | lia].
    + intros Hmax. rewrite (subscript_spec _ _ _ _ _ Hl) by (auto; lia).
      by rewrite Nat2Z.id.
  - intros t Ht. apply (findPointerTo_absent _ _ xs); auto.
    destruct t as [a|]; [|reflexivity]. simpl.
    apply bool_decide_eq_false_2. by apply Ht.
Qed.

(** X13.  On an empty handle, [insertNext] of an unlinked node followed by
    [removeNext] is a round trip: the node inserted is returned and the
    memory is exactly what it was. *)
Theorem insertNext_removeNext_on_empty m this n :
  slot_val m this = Some None -> slot_val m (NextOf n) = Some None ->
  this <> NextOf n ->
  (exec insertNext this (Some n) in removeNext this) m = Done (Some n, m).
Proof.
  intros Hthis Hn Hne. run (insertNext_Done _ _ _ _ Hthis Hn).
  rewrite (store_same _ _ _ Hn).
  assert (Hthis1 : slot_val (store m this (Some n)) this = Some (Some n))
    by (apply slot_val_store_eq; eauto).
  assert (Hn1 : slot_val (store m this (Some n)) (NextOf n) = Some None)
    by (by rewrite slot_val_store_ne).
  rewrite (removeNext_nonempty _ _ _ _ Hthis1 Hn1 Hne).
  by rewrite (store_same _ _ _ Hn1), store_store, (store_same _ _ _ Hthis).
Qed.

Lemma objects_store_ne m l q a :
  l <> NextOf a -> objects (store m l q) !! a = objects m !! a.
Proof.
  destruct l as [k|b]; unfold store; cbn [objects]; intros Hne; [done|].
  apply lookup_alter_ne. congruence.
Qed.

Lemma heads_store_ne m l q k :
  l <> Head k -> heads (store m l q) !! k = heads m !! k.
Proof.
  destruct l as [k'|b]; unfold store; cbn [heads]; intros Hne; [|done].
  apply lookup_insert_ne. congruence.
Qed.

Lemma slot_val_delete_ne m l a :
  l <> NextOf a ->
  slot_val (mkMemory (heads m) (delete a (objects m))) l = slot_val m l.
Proof.
  destruct l as [k|b]; unfold slot_val; cbn [heads objects]; intros Hne; [done|].
  rewrite lookup_delete_ne by congruence. reflexivity.
Qed.

Lemma chain_delete_frame m p xs a :
  a ∉ xs -> chain m p xs ->
  chain (mkMemory (heads m) (delete a (objects m))) p xs.
Proof.
  revert p. induction xs as [|b xs IH]; intros p Ha; simpl; [done|].
  intros [-> (q & Hq & Hc)]. split; [reflexivity|]. exists q. split.
  - rewrite slot_val_delete_ne; [exact Hq|]. intros [= ->]. apply Ha. left.
  - apply IH; [|exact Hc]. intros Hin. apply Ha. by right.
Qed.

(** X14.  [deleteAll] frees every node of the list and leaves the handle
    empty; no other object and no other list head is touched. *)
Theorem deleteAll_frees m this xs fuel :
  list_at m this xs -> (length xs < fuel)%nat ->
  exists m', deleteAll fuel this m = Done (tt, m') /\
             slot_val m' this = Some None /\
             (forall a, a ∈ xs -> objects m' !! a = None) /\
             (forall a, a ∉ xs -> this <> NextOf a ->
                        objects m' !! a = objects m !! a) /\
             (forall k, this <> Head k -> heads m' !! k = heads m !! k).
Proof.
  revert m fuel. induction xs as [|a xs IH]; intros m fuel Hl Hf;
    (destruct fuel as [|fuel]; [simpl in Hf; lia|]);
    pose proof Hl as (p & Hp & Hc); simpl in Hc; cbn [deleteAll].
  - subst p. run_read Hp. exists m. repeat split; auto.
    intros a Ha. by apply elem_of_nil in Ha.
  - destruct Hc as [-> (q & Hq & Hc)]. run_read Hp. cbn [next_of].
    run_read Hq. run_write Hp.
    assert (Hne : this <> NextOf a).
    { intros ->. apply (list_at_next_notin _ _ _ Hl). left. }
    assert (Ha_notin : a ∉ xs).
    { apply (list_at_next_notin m). exists q. auto. }
    assert (Hfr : forall b, b ∈ xs -> this <> NextOf b).
    { intros b Hb ->. apply (list_at_next_notin _ _ _ Hl). by right. }
    set (m1 := store m this q).
    assert (Ha1 : exists o, objects m1 !! a = Some o).
    { unfold m1. rewrite objects_store_ne by done.
      unfold slot_val in Hq. destruct (objects m !! a); [eauto|done]. }
    destruct Ha1 as [o Ha1].
    assert (Hfree : free (Some a) m1
                    = Done (tt, mkMemory (heads m1) (delete a (objects m1))))
      by (unfold free; by rewrite Ha1).
    run Hfree.
    set (m2 := mkMemory (heads m1) (delete a (objects m1))).
    assert (Hl2 : list_at m2 this xs).
    { exists q. split.
      - unfold m2. rewrite slot_val_delete_ne by done.
        apply slot_val_store_eq. eauto.
      - apply chain_delete_frame; [exact Ha_notin|].
        by apply chain_store_frame. }
    destruct (IH m2 fuel Hl2) as (m' & Hrun & Hthis' & Hfreed & Hobj & Hheads).
    { simpl in Hf. lia. }
    exists m'. split; [exact Hrun|]. split; [exact Hthis'|]. repeat split.
    + intros b [->|Hb]%elem_of_cons; [|by apply Hfreed].
      rewrite Hobj by done. unfold m2. cbn [objects]. apply lookup_delete_eq.
    + intros b Hb Hbne. apply not_elem_of_cons in Hb as [Hba Hb].
      rewrite Hobj by done. unfold m2. cbn [objects].
      rewrite lookup_delete_ne by done. unfold m1. by apply objects_store_ne.
    + intros k Hk. rewrite Hheads by done. unfold m2. cbn [heads].
      unfold m1. by apply heads_store_ne.
Qed.

Lemma copyToArray_loop_spec m xs : forall p fuel (arr : list ptr) pos,
  chain m p xs -> (length xs < fuel)%nat -> (pos <= length arr)%nat ->
  ((pos + length xs <= length arr)%nat ->
   copyToArray_loop fuel p arr pos m
   = Done (take pos arr ++ (Some <$> xs) ++ drop (pos + length xs) arr, m)) /\
  ((length arr < pos + length xs)%nat ->
   copyToArray_loop fuel p arr pos m = Undefined).
Proof.
  induction xs as [|a xs IH]; intros p fuel arr pos Hc Hf Hpos;
    (destruct fuel as [|fuel]; [simpl in Hf; lia|]); simpl in Hc;
    cbn [copyToArray_loop].
  - subst p. split; [|simpl; lia]. intros _. simpl.
    by rewrite Nat.add_0_r, take_drop.
  - destruct Hc as [-> (q & Hq & Hc)]. cbn [length].
    destruct (decide (pos < length arr)%nat) as [Hlt|Hge].
    + cbn [next_of]. run_read Hq.
      destruct (IH q fuel (<[pos:=Some a]> arr) (S pos) Hc) as [Hok Hbad].
      { simpl in Hf. lia. }
      { rewrite length_insert. lia. }
      rewrite length_insert in Hok, Hbad. split.
      * intros Hfit. rewrite Hok by lia.
        rewrite (take_S_r _ _ (Some a)) by (by apply list_lookup_insert_eq).
        rewrite take_insert_ge, drop_insert_lt by lia.
        rewrite <- app_assoc. simpl.
        by replace (pos + S (length xs))%nat with (S (pos + length xs)) by lia.
      * intros Hover. apply Hbad. lia.
    + split; [lia | reflexivity].
Qed.

(** X15.  [copyToArray] asserts that the destination is not null.  Into an
    array with room for the whole list it writes the nodes in list order
    from the first element on and leaves the elements after them as they
    were; into a shorter array it stores past the end, which is undefined
    behaviour.  The list itself is not changed. *)
Theorem copyToArray_fills m this xs (arr : list ptr) fuel :
  list_at m this xs -> (length xs < fuel)%nat ->
  copyToArray fuel this None m = PrecondViolation /\
  ((length xs <= length arr)%nat ->
   copyToArray fuel this (Some arr) m
   = Done ((Some <$> xs) ++ drop (length xs) arr, m)) /\
  ((length arr < length xs)%nat ->
   copyToArray fuel this (Some arr) m = Undefined).
Proof.
  intros (p & Hp & Hc) Hf. split; [reflexivity|].
  destruct (copyToArray_loop_spec m xs p fuel arr 0 Hc Hf) as [Hok Hbad]; [lia|].
  unfold copyToArray. rewrite bool_decide_eq_true_2 by done.
  unfold jassert at 1 2. cbn [bind]. run_read Hp. split.
  - intros Hfit. by rewrite Hok.
  - intros Hover. by rewrite Hbad.
Qed.

(** X16.  With a copy constructor that leaves the link of the copy empty,
    [addCopyOfList] allocates one new node per source node, in source order
    and with the payload the copy constructor gives, links them in starting
    at the handle, in front of the nodes the handle referenced, and leaves
    the source nodes and the source list as they were. *)
Theorem addCopyOfList_copies_in_front (copy_constructor : Object V -> Object V)
    m this other ds ss fuel :
  (forall o, nextListItem (copy_constructor o) = None) ->
  list_at m this ds -> list_at m other ss ->
  (forall a, a ∈ ss -> this <> NextOf a) ->
  (length ss < fuel)%nat ->
  exists m' cs,
    addCopyOfList copy_constructor fuel this other m = Done (tt, m') /\
    list_at m' this (cs ++ ds) /\
    length cs = length ss /\
    Forall (fun c => objects m !! c = None) cs /\
    Forall2 (fun c a =>
               exists oc oa, objects m' !! c = Some oc /\
                             objects m' !! a = Some oa /\
                             payload oc = payload (copy_constructor oa)) cs ss /\
    (forall a, a ∈ ss -> objects m' !! a = objects m !! a) /\
    (other <> this -> list_at m' other ss).
Proof.
  intros Hcopy Hl (p & Hp & Hc) Hfr Hf.
  destruct (addCopyOfList_loop_spec copy_constructor Hcopy ss fuel m this p ds
              Hc Hl Hfr Hf) as (m' & cs & Hrun & Hl' & Hfresh & Hcopies & Hup).
  exists m', cs. unfold addCopyOfList. run_read Hp.
  split; [exact Hrun|]. split; [exact Hl'|].
  split; [by eapply Forall2_length|]. split; [exact Hfresh|].
  split; [exact Hcopies|]. split.
  - intros a Ha. destruct (chain_allocated _ _ _ _ Hc Ha) as [o Ho].
    destruct Hup as (_ & Hobj & _). rewrite Ho. apply Hobj; auto.
  - intros Hne. exists p. split.
    + eapply updated_at_slot_val; eauto.
    + eapply updated_at_chain; eauto.
Qed.

(** X17.  When the copy constructor gives the copy of the first source node
    a link that is not empty (as the implicit member-wise copy does for a
    node that has a successor), [addCopyOfList] fails the assertion of
    [insertNext]: a PrecondViolation, whatever the destination. *)
Theorem addCopyOfList_linked_copy_asserts (copy_constructor : Object V -> Object V)
    m this other a o b fuel :
  slot_val m other = Some (Some a) -> objects m !! a = Some o ->
  nextListItem (copy_constructor o) = Some b -> (0 < fuel)%nat ->
  addCopyOfList copy_constructor fuel this other m = PrecondViolation.
Proof.
  intros Hother Ha Hlink Hf. destruct fuel as [|fuel]; [lia|].
  unfold addCopyOfList. run_read Hother. cbn [addCopyOfList_loop].
  assert (Hderef : deref (Some a) m = Done (o, m)) by (unfold deref; by rewrite Ha).
  run Hderef.
  destruct (alloc_Done m (copy_constructor o)) as (c & Hc_fresh & Halloc).
  run Halloc. unfold bind at 1. rewrite (insertNext_linked _ _ _ b); [reflexivity|].
  unfold slot_val. cbn [objects]. by rewrite lookup_insert_eq; simpl; rewrite Hlink.
Qed.

(** X18.  The Appender keeps pointing at the terminal slot of the list: after
    any run of appends of distinct unlinked nodes, [endOfList] is the slot
    [getLast] returns on the list, and it holds the null pointer. *)
Theorem Appender_tracks_terminal_slot m this xs ns fuel :
  list_at m this xs ->
  Forall (fun n => slot_val m (NextOf n) = Some None) ns ->
  NoDup ns ->
  (forall n, n ∈ ns -> n ∉ xs) ->
  (forall n, n ∈ ns -> this <> NextOf n) ->
  (length xs + length ns < fuel)%nat ->
  exists tail ap m',
    getLast fuel this m = Done (tail, m) /\
    (let* ap0 := Appender_new tail in Appender_append_all ap0 ns) m
    = Done (ap, m') /\
    getLast fuel this m' = Done (endOfList ap, m') /\
    slot_val m' (endOfList ap) = Some None.
Proof.
  intros Hl Hns Hnd Hfresh Hthis Hf.
  destruct (appends_agree this fuel ns m xs) as (m' & Hap & _ & Hl'); auto.
  exists (terminal_slot this xs), (mkAppender (terminal_slot this (xs ++ ns))), m'.
  split; [apply getLast_spec; [exact Hl | lia]|]. split.
  - run (Appender_new_Done _ _ (terminal_slot_val _ _ _ Hl)). exact Hap.
  - cbn [endOfList]. split; [|by apply terminal_slot_val].
    apply getLast_spec; [exact Hl'|]. rewrite length_app. lia.
Qed.

(** X19.  Starting from an empty list, [k] calls of [append] with distinct
    unlinked nodes build the list of those nodes in the order appended, and
    [size] then returns [k]. *)
Theorem append_all_builds_list m this ns fuel :
  slot_val m this = Some None ->
  Forall (fun n => slot_val m (NextOf n) = Some None) ns ->
  NoDup ns ->
  (forall n, n ∈ ns -> this <> NextOf n) ->
  Z.of_nat (length ns) <= Int.INT_MAX ->
  (length ns < fuel)%nat ->
  exists m', append_all fuel this ns m = Done (tt, m') /\
             list_at m' this ns /\
             size fuel this m' = Done (Z.of_nat (length ns), m').
Proof.
  intros Hthis Hns Hnd Hne Hlen Hf.
  destruct (appends_agree this fuel ns m []) as (m' & _ & Hseq & Hl'); auto.
  - exists None. split; [exact Hthis | reflexivity].
  - intros n _ Hin. by apply elem_of_nil in Hin.
  - exists m'. simpl in Hl'. split; [exact Hseq|]. split; [exact Hl'|].
    by apply size_exact.
Qed.

(** X20.  Indexing composes: for indices [i] and [j] from 0 on with [i + j]
    at most INT_MAX, [operator[] (j)] applied to the slot [operator[] (i)]
    returns is [operator[] (i + j)]. *)
Theorem subscript_compose m this xs fuel i j :
  list_at m this xs -> 0 <= i -> 0 <= j -> i + j <= Int.INT_MAX ->
  (length xs < fuel)%nat ->
  (let* l := subscript fuel this i in subscript fuel l j) m
  = subscript fuel this (i + j) m.
Proof.
  intros Hl Hi Hj Hij Hf.
  run (subscript_spec m this xs fuel i Hl ltac:(lia) Hf).
  rewrite (subscript_spec m _ (drop (Z.to_nat i) xs) fuel j);
    [|by apply list_at_slot_at | lia | rewrite length_drop; lia].
  rewrite (subscript_spec m this xs fuel (i + j) Hl) by (auto; lia).
  by rewrite slot_at_add, Z2Nat.inj_add.
Qed.

Lemma getLast_pure fuel : forall l m r m',
  getLast fuel l m = Done (r, m') -> m' = m.
Proof.
  induction fuel as [|fuel IH]; intros l m r m' H; [discriminate|].
  cbn [getLast] in H. unfold bind, read in H.
  destruct (slot_val m l) as [[a|]|]; [eauto | | discriminate].
  by injection H as _ <-.
Qed.

Lemma size_loop_pure fuel : forall p t m r m',
  size_loop fuel p t m = Done (r, m') -> m' = m.
Proof.
  induction fuel as [|fuel IH]; intros p t m r m' H; [discriminate|].
  cbn [size_loop] in H. destruct p as [a|]; [|by injection H as _ <-].
  unfold bind, next_of, read in H.
  destruct (slot_val m (NextOf a)); [eauto | discriminate].
Qed.

Lemma contains_loop_pure fuel : forall t p m r m',
  contains_loop fuel t p m = Done (r, m') -> m' = m.
Proof.
  induction fuel as [|fuel IH]; intros t p m r m' H; [discriminate|].
  cbn [contains_loop] in H. destruct p as [a|]; [|by injection H as _ <-].
  case_bool_decide; [by injection H as _ <-|].
  unfold bind, next_of, read in H.
  destruct (slot_val m (NextOf a)); [eauto | discriminate].
Qed.

Lemma subscript_pure fuel : forall l index m r m',
  subscript fuel l index m = Done (r, m') -> m' = m.
Proof.
  induction fuel as [|fuel IH]; intros l index m r m' H; [discriminate|].
  cbn [subscript] in H. destruct (0 <=? Int.dec index); [|by injection H as _ <-].
  unfold bind, read in H.
  destruct (slot_val m l) as [[a|]|]; [eauto | | discriminate].
  by injection H as _ <-.
Qed.

Lemma findPointerTo_pure fuel : forall l t m r m',
  findPointerTo fuel l t m = Done (r, m') -> m' = m.
Proof.
  induction fuel as [|fuel IH]; intros l t m r m' H; [discriminate|].
  cbn [findPointerTo] in H. unfold bind, read in H.
  destruct (slot_val m l) as [[a|]|]; [| | discriminate].
  - case_bool_decide; [by injection H as _ <- | eauto].
  - by injection H as _ <-.
Qed.

Lemma copyToArray_loop_pure fuel : forall p (arr : list ptr) pos m r m',
  copyToArray_loop fuel p arr pos m = Done (r, m') -> m' = m.
Proof.
  induction fuel as [|fuel IH]; intros p arr pos m r m' H; [discriminate|].
  cbn [copyToArray_loop] in H. destruct p as [a|]; [|by injection H as _ <-].
  case_decide; [|discriminate].
  unfold bind, next_of, read in H.
  destruct (slot_val m (NextOf a)); [eauto | discriminate].
Qed.

(** X21.  The methods declared [const], and [getLast], the non-const
    [operator[]] and [findPointerTo], never change the memory: whenever one
    of them returns, on any memory, well-formed or not, the memory is the one
    it started from. *)
Theorem queries_leave_memory m this fuel :
  (forall r m', size fuel this m = Done (r, m') -> m' = m) /\
  (forall t r m', contains fuel this t m = Done (r, m') -> m' = m) /\
  (forall r m', getLast fuel this m = Done (r, m') -> m' = m) /\
  (forall index r m', subscript fuel this index m = Done (r, m') -> m' = m) /\
  (forall t r m', findPointerTo fuel this t m = Done (r, m') -> m' = m) /\
  (forall d r m', copyToArray fuel this d m = Done (r, m') -> m' = m).
Proof.
  repeat split.
  - intros r m' H. unfold size, bind, read in H.
    destruct (slot_val m this); [|discriminate]. by eapply size_loop_pure.
  - intros t r m' H. unfold contains, bind, read in H.
    destruct (slot_val m this); [|discriminate]. by eapply contains_loop_pure.
  - apply getLast_pure.
  - intros index. apply subscript_pure.
  - intros t. apply findPointerTo_pure.
  - intros d r m' H. unfold copyToArray in H. destruct d as [arr|]; [|discriminate].
    rewrite bool_decide_eq_true_2 in H by done.
    unfold jassert, bind, read in H.
    destruct (slot_val m this); [|discriminate]. by eapply copyToArray_loop_pure.
Qed.

(** X22.  The slot [operator[]] returns for an index from 0 on heads the rest
    of the list from that position, so [size] on it is the length minus the
    index, and 0 past the end. *)
Theorem subscript_heads_suffix m this xs fuel index :
  list_at m this xs -> 0 <= index <= Int.INT_MAX ->
  Z.of_nat (length xs) <= Int.INT_MAX -> (length xs < fuel)%nat ->
  exists l, subscript fuel this index m = Done (l, m) /\
            list_at m l (drop (Z.to_nat index) xs) /\
            size fuel l m = Done (Z.max 0 (Z.of_nat (length xs) - index), m).
Proof.
  intros Hl Hi Hlen Hf. exists (slot_at this xs (Z.to_nat index)).
  pose proof (list_at_slot_at m this xs (Z.to_nat index) Hl) as Hs.
  split; [by apply subscript_spec|]. split; [exact Hs|].
  rewrite (size_exact _ _ _ _ Hs) by (rewrite length_drop; lia).
  rewrite length_drop. do 2 f_equal. lia.
Qed.

(** X23.  [replaceNext] asserts on its argument before it touches the list,
    also on an empty handle: a null node, and a node whose link field is not
    empty, are each a PrecondViolation. *)
Theorem replaceNext_asserts m this :
  replaceNext this None m = PrecondViolation /\
  (forall n b, slot_val m (NextOf n) = Some (Some b) ->
               replaceNext this (Some n) m = PrecondViolation).
Proof.
  split; [reflexivity|].
  intros n b Hn. unfold replaceNext.
  rewrite bool_decide_eq_true_2 by done.
  unfold jassert at 1. cbn [bind next_of]. run_read Hn. reflexivity.
Qed.

(** X24.  [Appender::append] does not look at the link of the node it is
    given, and the next [Appender::append] overwrites that link: after
    appending a node [n1] that has nodes [ys] hanging off it and then an
    unlinked node [n2], the list is the old nodes followed by [n1] and [n2];
    the nodes [ys] are cut off. *)
Theorem Appender_append_cuts_hanging_chain m this xs n1 ys n2 :
  list_at m this xs ->
  chain m (Some n1) (n1 :: ys) ->
  slot_val m (NextOf n2) = Some None ->
  (forall a, a ∈ n1 :: ys -> a ∉ xs) ->
  (forall a, a ∈ n1 :: ys -> this <> NextOf a) ->
  n2 ∉ xs -> n2 ∉ n1 :: ys -> this <> NextOf n2 ->
  exists ap m',
    (let* ap0 := Appender_new (terminal_slot this xs) in
     let* ap1 := Appender_append ap0 (Some n1) in
     Appender_append ap1 (Some n2)) m = Done (ap, m') /\
    list_at m' this (xs ++ [n1; n2]) /\
    endOfList ap = NextOf n2.
Proof.
  intros Hl Hc Hn2 Hdisj Hthis Hn2xs Hn2ys Hthis2.
  pose proof (terminal_slot_val _ _ _ Hl) as Ht.
  set (t := terminal_slot this xs) in *.
  assert (Htne : forall a, a ∈ n1 :: ys -> t <> NextOf a).
  { intros a Ha. apply terminal_slot_ne; auto. }
  assert (Htn2 : t <> NextOf n2) by (by apply terminal_slot_ne).
  set (m1 := store m t (Some n1)).
  assert (Hl1 : list_at m1 this (xs ++ n1 :: ys))
    by (by apply list_at_store_terminal).
  assert (Hn1 : is_Some (slot_val m1 (NextOf n1))).
  { unfold m1. rewrite slot_val_store_ne by (apply Htne; left).
    simpl in Hc. destruct Hc as [_ (q & Hq & _)]. eauto. }
  destruct Hn1 as [q1 Hn1].
  exists (mkAppender (NextOf n2)), (store m1 (NextOf n1) (Some n2)).
  split; [|split; [|reflexivity]].
  - run (Appender_new_Done _ _ Ht). run (Appender_append_Done _ _ _ n1 Ht).
    by apply (Appender_append_Done m1 (NextOf n1) q1 n2).
  - pose proof (list_at_store_slot_at m1 this (xs ++ n1 :: ys)
                  (S (length xs)) (Some n2) [n2] Hl1) as H.
    rewrite (slot_at_succ _ _ _ n1) in H by (by rewrite list_lookup_middle).
    replace (take (S (length xs)) (xs ++ n1 :: ys)) with (xs ++ [n1]) in H.
    + rewrite <- app_assoc in H. apply H.
      * apply chain_singleton. unfold m1. by rewrite slot_val_store_ne.
      * intros a Ha%list_elem_of_singleton [= ->]. subst a.
        apply Hn2ys. left.
    + replace (S (length xs)) with (length xs + 1)%nat by lia.
      by rewrite take_app_add.
Qed.

End Laws.

(** ** The further facts on concrete lists *)

Module LawRuns.
Import Scenario.

Ltac show_list := Runs.show_chain.

(** Closes [a ∉ [b; c; ...]] for distinct concrete nodes. *)
Ltac show_absent :=
  let Hin := fresh "Hin" in
  intros Hin;
  repeat (apply elem_of_cons in Hin as [Hin|Hin]; [discriminate|]);
  by apply elem_of_nil in Hin.

Lemma size_counts_nodes_witness : size 4 list1 m_ABC = Done (3, m_ABC).
Proof.
  apply (size_counts_nodes m_ABC list1 [nA; nB; nC] 4);
    [exact Runs.m_ABC_list | vm_compute; discriminate | simpl; lia].
Defined.

Lemma contains_reference_identity_witness :
  (forall a, contains 4 list1 (Some a) m_ABC
             = Done (bool_decide (a ∈ [nA; nB; nC]), m_ABC)) /\
  contains 4 list1 None m_ABC = Done (false, m_ABC).
Proof.
  apply (contains_reference_identity m_ABC list1 [nA; nB; nC] 4);
    [exact Runs.m_ABC_list | simpl; lia].
Defined.

Lemma getLast_returns_empty_slot_witness :
  getLast 4 list1 m_ABC = Done (NextOf nC, m_ABC) /\
  (let* l' := getLast 4 list1 in get l') m_ABC = Done (None, m_ABC) /\
  getLast 4 (NextOf nC) m_ABC = Done (NextOf nC, m_ABC).
Proof.
  destruct (getLast_returns_empty_slot m_ABC list1 [nA; nB; nC] 4)
    as (l & Hrun & Hget & _ & Hlast & Hidem);
    [exact Runs.m_ABC_list | simpl; lia |].
  rewrite (Hlast nC eq_refl) in Hrun, Hidem. auto.
Defined.

Lemma insertNext_prepends_witness :
  exists m', insertNext list1 (Some nX) m_ABC = Done (tt, m') /\
             list_at m' list1 [nX; nA; nB; nC] /\
             get list1 m' = Done (Some nX, m').
Proof.
  apply (insertNext_prepends m_ABC list1 [nA; nB; nC] nX);
    [exact Runs.m_ABC_list | reflexivity | show_absent | discriminate].
Defined.

Lemma insertNext_asserts_witness :
  insertNext list1 None m_ABC = PrecondViolation /\
  insertNext list1 (Some nA) m_ABC = PrecondViolation.
Proof.
  destruct (insertNext_asserts m_ABC list1) as [Hnull Hlinked].
  split; [exact Hnull|]. exact (Hlinked nA nB eq_refl).
Defined.

Lemma insertAtIndex_position_witness :
  exists m', insertAtIndex 4 list1 1 (Some nX) m_ABC = Done (tt, m') /\
             list_at m' list1 [nA; nX; nB; nC].
Proof.
  destruct (insertAtIndex_position m_ABC list1 [nA; nB; nC] nX 4 1)
    as (m' & Hrun & Hl & _);
    [exact Runs.m_ABC_list | reflexivity | show_absent | discriminate
    | vm_compute; split; discriminate | simpl; lia |].
  exists m'. split; [exact Hrun | exact Hl].
Defined.


Lemma insertAtIndex_is_subscript_insertNext_witness :
  insertAtIndex 4 list1 2 (Some nX) m_ABC
  = (let* l := subscript 4 list1 2 in insertNext l (Some nX)) m_ABC.
Proof.
  apply (insertAtIndex_is_subscript_insertNext m_ABC list1 [nA; nB; nC] 4 2 nX);
    [exact Runs.m_ABC_list | vm_compute; split; discriminate | simpl; lia].
Defined.

Lemma removeNext_nothing_follows_witness :
  removeNext list1 m_empty = Done (None, m_empty) /\
  removeNext list1 m_A = Done (Some nA, store m_A list1 None) /\
  list_at (store m_A list1 None) list1 [] /\
  slot_val (store m_A list1 None) (NextOf nA) = Some None.
Proof.
  split.
  - exact (proj1 (removeNext_nothing_follows m_empty list1) eq_refl).
  - exact (proj2 (removeNext_nothing_follows m_A list1) nA Runs.m_A_list).
Defined.

Lemma remove_absent_noop_witness :
  remove 4 list1 (Some nX) m_ABC = Done (tt, m_ABC).
Proof.
  apply (remove_absent_noop m_ABC list1 [nA; nB; nC] 4 (Some nX));
    [exact Runs.m_ABC_list | simpl; lia |].
  intros a [= <-]. show_absent.
Defined.

Lemma remove_last_node_witness :
  exists m', remove 3 list1 (Some nB) m_AB = Done (tt, m') /\
             list_at m' list1 [nA] /\
             slot_val m' (NextOf nB) = Some None.
Proof.
  apply (remove_last_node m_AB list1 [nA] nB 3);
    [exact Runs.m_AB_list | simpl; lia].
Defined.

Lemma findPointerTo_locates_witness :
  (exists l, findPointerTo 4 list1 (Some nB) m_ABC = Done (Some l, m_ABC) /\
             slot_val m_ABC l = Some (Some nB) /\
             subscript 4 list1 1 m_ABC = Done (l, m_ABC)) /\
  findPointerTo 4 list1 (Some nX) m_ABC = Done (None, m_ABC).
Proof.
  destruct (findPointerTo_locates m_ABC list1 [nA; nB; nC] 4)
    as [Hfound Habsent]; [exact Runs.m_ABC_list | simpl; lia |].
  split.
  - destruct (Hfound 1%nat nB eq_refl) as (l & Hrun & Hval & Hsub).
    exists l. split; [exact Hrun|]. split; [exact Hval|].
    apply Hsub. vm_compute. discriminate.
  - apply Habsent. intros a [= <-]. show_absent.
Defined.

Lemma insertNext_removeNext_on_empty_witness :
  (exec insertNext list1 (Some nX) in removeNext list1) m_empty
  = Done (Some nX, m_empty).
Proof.
  apply (insertNext_removeNext_on_empty m_empty list1 nX);
    [reflexivity | reflexivity | discriminate].
Defined.

Lemma deleteAll_frees_witness :
  exists m', deleteAll 4 list1 m_ABC = Done (tt, m') /\
             slot_val m' list1 = Some None /\
             (forall a, a ∈ [nA; nB; nC] -> objects m' !! a = None) /\
             (forall a, a ∉ [nA; nB; nC] -> list1 <> NextOf a ->
                        objects m' !! a = objects m_ABC !! a) /\
             (forall k, list1 <> Head k -> heads m' !! k = heads m_ABC !! k).
Proof.
  apply (deleteAll_frees m_ABC list1 [nA; nB; nC] 4);
    [exact Runs.m_ABC_list | simpl; lia].
Defined.

Lemma copyToArray_fills_witness :
  copyToArray 4 list1 None m_ABC = PrecondViolation /\
  copyToArray 4 list1 (Some [None; None; None; Some nX]) m_ABC
  = Done ([Some nA; Some nB; Some nC; Some nX], m_ABC) /\
  copyToArray 4 list1 (Some [None; None]) m_ABC = Undefined.
Proof.
  split; [|split].
  - apply (copyToArray_fills m_ABC list1 [nA; nB; nC] [] 4);
      [exact Runs.m_ABC_list | simpl; lia].
  - apply (copyToArray_fills m_ABC list1 [nA; nB; nC]
             [None; None; None; Some nX] 4);
      [exact Runs.m_ABC_list | simpl; lia | simpl; lia].
  - apply (copyToArray_fills m_ABC list1 [nA; nB; nC] [None; None] 4);
      [exact Runs.m_ABC_list | simpl; lia | simpl; lia].
Defined.

Lemma addCopyOfList_copies_in_front_witness :
  exists m' cs,
    addCopyOfList copy_payload 3 list1 list2 m_dest_src = Done (tt, m') /\
    list_at m' list1 (cs ++ [nA]) /\
    length cs = length [nB; nC] /\
    Forall (fun c => objects m_dest_src !! c = None) cs /\
    Forall2 (fun c a =>
               exists oc oa, objects m' !! c = Some oc /\
                             objects m' !! a = Some oa /\
                             payload oc = payload (copy_payload oa))
            cs [nB; nC] /\
    (forall a, a ∈ [nB; nC] -> objects m' !! a = objects m_dest_src !! a) /\
    list_at m' list2 [nB; nC].
Proof.
  destruct (addCopyOfList_copies_in_front copy_payload m_dest_src list1 list2
              [nA] [nB; nC] 3)
    as (m' & cs & H1 & H2 & H3 & H4 & H5 & H6 & H7);
    [reflexivity | apply Runs.m_dest_src_lists | apply Runs.m_dest_src_lists
    | intros a _; discriminate | simpl; lia |].
  exists m', cs. repeat (split; [assumption|]). apply H7. discriminate.
Defined.

Lemma addCopyOfList_linked_copy_asserts_witness :
  addCopyOfList copy_memberwise 3 list1 list2 m_dest_src = PrecondViolation.
Proof.
  apply (addCopyOfList_linked_copy_asserts copy_memberwise m_dest_src list1
           list2 nB (node 20 (Some nC)) nC 3);
    [reflexivity | reflexivity | reflexivity | lia].
Defined.

Lemma Appender_tracks_terminal_slot_witness :
  exists tail ap m',
    getLast 5 list1 m_ABC = Done (tail, m_ABC) /\
    (let* ap0 := Appender_new tail in Appender_append_all ap0 [nX]) m_ABC
    = Done (ap, m') /\
    getLast 5 list1 m' = Done (endOfList ap, m') /\
    slot_val m' (endOfList ap) = Some None.
Proof.
  apply (Appender_tracks_terminal_slot m_ABC list1 [nA; nB; nC] [nX] 5).
  - exact Runs.m_ABC_list.
  - repeat constructor.
  - apply NoDup_singleton.
  - intros n Hn. apply list_elem_of_singleton in Hn. subst n. show_absent.
  - intros n _ H. discriminate H.
  - simpl. lia.
Defined.

Lemma append_all_builds_list_witness :
  exists m', append_all 3 list1 [nX] m_empty = Done (tt, m') /\
             list_at m' list1 [nX] /\
             size 3 list1 m' = Done (Z.of_nat (length [nX]), m').
Proof.
  apply (append_all_builds_list m_empty list1 [nX] 3).
  - reflexivity.
  - repeat constructor.
  - apply NoDup_singleton.
  - intros n _ H. discriminate H.
  - vm_compute. discriminate.
  - simpl. lia.
Defined.

Lemma subscript_compose_witness :
  (let* l := subscript 4 list1 1 in subscript 4 l 1) m_ABC
  = subscript 4 list1 (1 + 1) m_ABC.
Proof.
  apply (subscript_compose m_ABC list1 [nA; nB; nC] 4 1 1);
    [exact Runs.m_ABC_list | lia | lia | vm_compute; discriminate | simpl; lia].
Defined.

Lemma queries_leave_memory_witness :
  (exists r m', size 4 list1 m_ABC = Done (r, m') /\ m' = m_ABC) /\
  (exists r m', contains 4 list1 (Some nB) m_ABC = Done (r, m') /\ m' = m_ABC) /\
  (exists r m', getLast 4 list1 m_ABC = Done (r, m') /\ m' = m_ABC) /\
  (exists r m', subscript 4 list1 2 m_ABC = Done (r, m') /\ m' = m_ABC) /\
  (exists r m', findPointerTo 4 list1 (Some nC) m_ABC = Done (r, m') /\
                m' = m_ABC) /\
  (exists r m', copyToArray 4 list1 (Some [None; None; None]) m_ABC
                = Done (r, m') /\ m' = m_ABC).
Proof.
  destruct (queries_leave_memory m_ABC list1 4)
    as (Hsize & Hcontains & HgetLast & Hsubscript & Hfind & Hcopy).
  repeat apply conj.
  - exists 3, m_ABC. split; [vm_compute; reflexivity|].
    apply (Hsize 3). vm_compute. reflexivity.
  - exists true, m_ABC. split; [vm_compute; reflexivity|].
    apply (Hcontains (Some nB) true). vm_compute. reflexivity.
  - exists (NextOf nC), m_ABC. split; [vm_compute; reflexivity|].
    apply (HgetLast (NextOf nC)). vm_compute. reflexivity.
  - exists (NextOf nB), m_ABC. split; [vm_compute; reflexivity|].
    apply (Hsubscript 2 (NextOf nB)). vm_compute. reflexivity.
  - exists (Some (NextOf nB)), m_ABC. split; [vm_compute; reflexivity|].
    apply (Hfind (Some nC) (Some (NextOf nB))). vm_compute. reflexivity.
  - exists [Some nA; Some nB; Some nC], m_ABC. split; [vm_compute; reflexivity|].
    apply (Hcopy (Some [None; None; None]) [Some nA; Some nB; Some nC]).
    vm_compute. reflexivity.
Defined.

Lemma subscript_heads_suffix_witness :
  exists l, subscript 4 list1 1 m_ABC = Done (l, m_ABC) /\
            list_at m_ABC l (drop (Z.to_nat 1) [nA; nB; nC]) /\
            size 4 l m_ABC
            = Done (Z.max 0 (Z.of_nat (length [nA; nB; nC]) - 1), m_ABC).
Proof.
  apply (subscript_heads_suffix m_ABC list1 [nA; nB; nC] 4 1);
    [exact Runs.m_ABC_list | vm_compute; split; discriminate
    | vm_compute; discriminate | simpl; lia].
Defined.

Lemma replaceNext_asserts_witness :
  replaceNext list1 None m_empty = PrecondViolation /\
  replaceNext list1 (Some nA) m_ABC = PrecondViolation.
Proof.
  split.
  - exact (proj1 (replaceNext_asserts m_empty list1)).
  - exact (proj2 (replaceNext_asserts m_ABC list1) nA nB eq_refl).
Defined.

Lemma Appender_append_cuts_hanging_chain_witness :
  exists ap m',
    (let* ap0 := Appender_new (terminal_slot list1 [nA]) in
     let* ap1 := Appender_append ap0 (Some nB) in
     Appender_append ap1 (Some nX)) m_cut = Done (ap, m') /\
    list_at m' list1 ([nA] ++ [nB; nX]) /\
    endOfList ap = NextOf nX.
Proof.
  apply (Appender_append_cuts_hanging_chain m_cut list1 [nA] nB [nC] nX).
  - show_list.
  - show_list.
  - reflexivity.
  - intros a Ha Hin. apply list_elem_of_singleton in Hin. subst a.
    revert Ha. show_absent.
  - intros a _ H. discriminate H.
  - show_absent.
  - show_absent.
  - discriminate.
Defined.

End LawRuns.
